(** * gogitfame: the statistics aggregation engine of [cmd/gitfame/main.go]

    A shallow embedding of the file filter, the blame parser
    ([calculateStats], [infoEmptyFile]), the reduction of per-file results
    ([aggregateStats]) and the ranking comparator ([sortByConfig]), followed
    by the properties established about them. [parallelFilter] is given as
    the transition system of its goroutines.

    Conventions.
    - A Go [string] is a sequence of bytes: [string] of the Standard Library,
      whose characters are the 256 values of [ascii].
    - A Go [int] is a 64-bit two's-complement integer: a [Z] kept in range by
      [wrap64] wherever the source adds.
    - A Go [map[string]T] is a [gmap string T]; a nil map and an empty map are
      told apart only where the source can write into one (the [commitsSet]
      field), where the nil map is [None].
    - A run-time panic is the [Panic] outcome. *)

From Stdlib Require Import ZArith Ascii String List Lia.
From stdpp Require Import base option list gmap strings sorting.

Local Open Scope Z_scope.
Set Warnings "-clear-no-such-hyp".

(** ** Outcomes of code that may panic *)

Inductive panic : Type :=
  | IndexOutOfRange   (* "index out of range" on a slice access *)
  | NilMapAssignment. (* "assignment to entry in nil map" *)

Inductive outcome (A : Type) : Type :=
  | Ret (a : A)
  | Panic (p : panic).
Arguments Ret {A} a.
Arguments Panic {A} p.

Global Instance outcome_ret : MRet outcome := fun A a => Ret a.
Global Instance outcome_bind : MBind outcome := fun A B k m =>
  match m with
  | Ret a => k a
  | Panic p => Panic p
  end.

(** [s[i]] on a slice: panics when [i] is not an index of [s]. *)
Definition index {A : Type} (s : list A) (i : nat) : outcome A :=
  match s !! i with
  | Some x => Ret x
  | None => Panic IndexOutOfRange
  end.

(** Running a body over a list, left to right, stopping at the first panic. *)
Fixpoint for_range {A S : Type} (f : A -> S -> outcome S) (l : list A) (s : S)
  : outcome S :=
  match l with
  | [] => Ret s
  | x :: l' => s' ← f x s; for_range f l' s'
  end.

Fixpoint collect {A B : Type} (f : A -> outcome B) (l : list A)
  : outcome (list B) :=
  match l with
  | [] => Ret []
  | x :: l' => y ← f x; ys ← collect f l'; Ret (y :: ys)
  end.

(** ** The parts of Go's [strings], [path/filepath] and [strconv] in use *)

Module GoStr.

(** [s[n:]] for [n <= len(s)]. *)
Fixpoint drop_bytes (n : nat) (s : string) : string :=
  match n, s with
  | O, _ => s
  | S n', String _ s' => drop_bytes n' s'
  | S _, EmptyString => EmptyString
  end.

(** [strings.HasPrefix(s, prefix)]. *)
Fixpoint HasPrefix (s prefix : string) : bool :=
  match prefix, s with
  | EmptyString, _ => true
  | String a p', String b s' => Ascii.eqb a b && HasPrefix s' p'
  | String _ _, EmptyString => false
  end.

(** [strings.HasSuffix(s, suffix)]:
    [len(s) >= len(suffix) && s[len(s)-len(suffix):] == suffix]. *)
Definition HasSuffix (s suffix : string) : bool :=
  (String.length suffix <=? String.length s)%nat &&
  String.eqb (drop_bytes (String.length s - String.length suffix) s) suffix.

(** [strings.TrimPrefix(s, prefix)]. *)
Definition TrimPrefix (s prefix : string) : string :=
  if HasPrefix s prefix then drop_bytes (String.length prefix) s else s.

(** [strings.Split(s, sep)] for a separator of one byte: the pieces between
    the occurrences of [sep]; never empty, [Split "" sep = [""]]. *)
Fixpoint Split (s : string) (sep : ascii) : list string :=
  match s with
  | EmptyString => [EmptyString]
  | String c s' =>
      if Ascii.eqb c sep then EmptyString :: Split s' sep
      else match Split s' sep with
           | piece :: pieces => String c piece :: pieces
           | [] => [String c EmptyString]
           end
  end.

(** The loop of [filepath.Ext]: walk from the last byte towards the first,
    stop at a path separator, return the suffix that starts at the first
    dot met. [seen] holds the bytes already walked over, in path order. *)
Fixpoint ext_scan (rev_path : list ascii) (seen : list ascii) : list ascii :=
  match rev_path with
  | [] => []
  | c :: rest =>
      if Ascii.eqb c "/" then []
      else if Ascii.eqb c "." then c :: seen
      else ext_scan rest (c :: seen)
  end.

(** [filepath.Ext(path)] (on a system whose path separator is [/]). *)
Definition Ext (path : string) : string :=
  string_of_list_ascii (ext_scan (rev (list_ascii_of_string path)) []).

(** [strings.ToLower] on strings of ASCII bytes: [A]..[Z] become [a]..[z]. *)
Definition lower_byte (c : ascii) : ascii :=
  let n := nat_of_ascii c in
  if ((65 <=? n) && (n <=? 90))%nat then ascii_of_nat (n + 32) else c.

Fixpoint ascii_ToLower (s : string) : string :=
  match s with
  | EmptyString => EmptyString
  | String c s' => String (lower_byte c) (ascii_ToLower s')
  end.

Definition is_digit (c : ascii) : bool :=
  let n := nat_of_ascii c in ((48 <=? n) && (n <=? 57))%nat.

(** [[a-f0-9]] *)
Definition is_hex_lower (c : ascii) : bool :=
  let n := nat_of_ascii c in is_digit c || ((97 <=? n) && (n <=? 102))%nat.

End GoStr.

Module GoInt.

Definition min_int : Z := - 2 ^ 63.
Definition max_int : Z := 2 ^ 63 - 1.

(** The value an [int] holds after an addition whose exact result is [z]. *)
Definition wrap64 (z : Z) : Z := (z + 2 ^ 63) mod 2 ^ 64 - 2 ^ 63.

Definition digit_value (c : ascii) : Z := Z.of_nat (nat_of_ascii c) - 48.

(** The value of a non-empty run of decimal digits, [None] on any other
    byte; [acc] is the value of the digits already read. *)
Fixpoint digits_value (s : string) (acc : Z) : option Z :=
  match s with
  | EmptyString => Some acc
  | String c s' =>
      if GoStr.is_digit c then digits_value s' (10 * acc + digit_value c)
      else None
  end.

(** [strconv.Atoi] for a 64-bit [int]; [None] stands for a non-nil error
    (syntax or range), the only thing the caller looks at. *)
Definition Atoi (s : string) : option Z :=
  let '(neg, body) :=
    match s with
    | String "-" r => (true, r)
    | String "+" r => (false, r)
    | _ => (false, s)
    end in
  match body with
  | EmptyString => None
  | _ =>
      match digits_value body 0 with
      | None => None
      | Some n =>
          let v := if neg then - n else n in
          if (min_int <=? v) && (v <=? max_int) then Some v else None
      end
  end.

End GoInt.

(** ** [configs.LoadExtensionsMap] *)

Module configs.
Section Table.

(** [strings.ToLower]; nothing below depends on what it computes. *)
Variable ToLower : string -> string.

Record languageExtension : Type := {
  Name : string;
  Type' : string;
  Extensions : list string
}.

(** [extensionsMap[langName] = append(extensionsMap[langName], ext)] *)
Definition add_extension (langName : string) (m : gmap string (list string))
    (ext : string) : gmap string (list string) :=
  <[langName := default [] (m !! langName) ++ [ext]]> m.

(** The two nested loops over the decoded [language_extensions.json], which
    is the argument [languages]. *)
Definition LoadExtensionsMap (languages : list languageExtension)
  : gmap string (list string) :=
  fold_left
    (fun m lang => fold_left (add_extension (ToLower (Name lang)))
                     (Extensions lang) m)
    languages ∅.

End Table.
End configs.

(** ** [cmd/gitfame/main.go] *)

Module gitfame.

Record Config : Type := {
  Repository : string;
  Revision : string;
  OrderBy : string;
  UseCommitter : bool;
  Format : string;
  Extensions : list string;
  Languages : list string;
  Exclude : list string;
  RestrictTo : list string;
  ExtensionsMap : gmap string (list string)
}.

(** [config.ExtensionsMap = configs.LoadExtensionsMap()] in [main]. *)
Definition set_ExtensionsMap (config : Config)
    (table : gmap string (list string)) : Config :=
  {| Repository := Repository config; Revision := Revision config;
     OrderBy := OrderBy config; UseCommitter := UseCommitter config;
     Format := Format config; Extensions := Extensions config;
     Languages := Languages config; Exclude := Exclude config;
     RestrictTo := RestrictTo config; ExtensionsMap := table |}.

(** [commitsSet] is a Go map, a reference that may be nil: [None] is the nil
    map of the zero value [ActorStats{}], [Some s] a map made by [make]. *)
Record ActorStats : Type := {
  Name : string;
  Lines : Z;
  commitsSet : option (gset string);
  Commits : Z;
  Files : Z
}.

(** The zero value [ActorStats{}]. *)
Definition ActorStats_zero : ActorStats :=
  {| Name := ""; Lines := 0; commitsSet := None; Commits := 0; Files := 0 |}.

(** *** The file filter *)

Section Filter.

(** [filepath.Match(pattern, name)], its [matched] result: the error is
    dropped by every caller, and [matched] is [false] beside an error. *)
Variable filepath_Match : string -> string -> bool.
Variable ToLower : string -> string.

Definition matchesExtensions (file : string) (extensions : list string)
  : bool :=
  if (length extensions =? 0)%nat then true
  else existsb (fun ext => GoStr.HasSuffix file ext) extensions.

Definition matchesExcludePatterns (file : string) (patterns : list string)
  : bool :=
  if (length patterns =? 0)%nat then true
  else negb (existsb (fun pattern => filepath_Match pattern file) patterns).

Definition matchesRestrictToPatterns (file : string)
    (patterns : list string) : bool :=
  if (length patterns =? 0)%nat then true
  else existsb (fun pattern => filepath_Match pattern file) patterns.

Definition matchesLanguage (filePath : string) (config : Config) : bool :=
  if (length (Languages config) =? 0)%nat then true
  else
    let fileExtension := GoStr.Ext filePath in
    existsb
      (fun allowedLang =>
         let allowedLang := ToLower allowedLang in
         match ExtensionsMap config !! allowedLang with
         | Some existedLang =>
             existsb (fun allowedExtension =>
                        GoStr.HasSuffix fileExtension allowedExtension)
                     existedLang
         | None => false
         end)
      (Languages config).

(** The condition under which a worker of [parallelFilter] sends its
    file. *)
Definition passes (config : Config) (file : string) : bool :=
  matchesExtensions file (Extensions config) &&
  matchesExcludePatterns file (Exclude config) &&
  matchesRestrictToPatterns file (RestrictTo config) &&
  matchesLanguage file config.

(** [parallelFilter] as a transition system over the goroutines it starts.

    - [unspawned]: files the [for] loop of the caller has not reached;
    - [running]: workers started ([filterWg.Add(1)] done) whose body has
      not run;
    - [finishing]: workers whose body has run and whose deferred
      [filterWg.Done()] has not;
    - [wg]: the counter of [filterWg];
    - [closer]: whether the goroutine that waits and closes was started;
    - [sent]: every value sent on [filteredChan] so far, in order (the
      buffer holds [len(files)] values, so no send blocks);
    - [closed]: whether [filteredChan] was closed. *)
Record filter_state : Type := {
  unspawned : list string;
  running : list string;
  finishing : nat;
  wg : nat;
  closer : bool;
  sent : list string;
  closed : bool
}.

Definition parallelFilter_init (files : list string) : filter_state :=
  {| unspawned := files; running := []; finishing := 0%nat; wg := 0%nat;
     closer := false; sent := []; closed := false |}.

Inductive parallelFilter_step (config : Config)
  : filter_state -> filter_state -> Prop :=
  | step_spawn file files run fin n snt :
      parallelFilter_step config
        {| unspawned := file :: files; running := run; finishing := fin;
           wg := n; closer := false; sent := snt; closed := false |}
        {| unspawned := files; running := run ++ [file]; finishing := fin;
           wg := S n; closer := false; sent := snt; closed := false |}
  | step_spawn_closer run fin n snt :
      parallelFilter_step config
        {| unspawned := []; running := run; finishing := fin;
           wg := n; closer := false; sent := snt; closed := false |}
        {| unspawned := []; running := run; finishing := fin;
           wg := n; closer := true; sent := snt; closed := false |}
  | step_body files run1 file run2 fin n cl snt c :
      parallelFilter_step config
        {| unspawned := files; running := run1 ++ file :: run2;
           finishing := fin; wg := n; closer := cl; sent := snt;
           closed := c |}
        {| unspawned := files; running := run1 ++ run2;
           finishing := S fin; wg := n; closer := cl;
           sent := if passes config file then snt ++ [file] else snt;
           closed := c |}
  | step_done files run fin n cl snt c :
      parallelFilter_step config
        {| unspawned := files; running := run; finishing := S fin;
           wg := S n; closer := cl; sent := snt; closed := c |}
        {| unspawned := files; running := run; finishing := fin;
           wg := n; closer := cl; sent := snt; closed := c |}
  | step_close files run fin snt :
      parallelFilter_step config
        {| unspawned := files; running := run; finishing := fin;
           wg := 0; closer := true; sent := snt; closed := false |}
        {| unspawned := files; running := run; finishing := fin;
           wg := 0; closer := true; sent := snt; closed := true |}.

(** The work left in a state: every step uses up one unit. *)
Definition filter_fuel (s : filter_state) : nat :=
  (3 * length (unspawned s) + 2 * length (running s) + finishing s
   + (if closer s then 0 else 1) + (if closed s then 0 else 1))%nat.

End Filter.

(** *** The attribution extractor *)

(** What [git] answered for one file: the standard output of
    [git blame --line-porcelain] and of [git log -n 1 --pretty=format:%H\n%an],
    [None] when [cmd.Run()] returned an error. *)
Record git_answers : Type := {
  blame : option string;
  log : option string
}.

(** [infoEmptyFile], given the answer of [git log]. *)
Definition infoEmptyFile (log_out : option string) : outcome ActorStats :=
  match log_out with
  | None => Ret ActorStats_zero
  | Some out =>
      let line := GoStr.Split out "010" in
      commitHash ← index line 0;
      actor ← index line 1;
      Ret {| Name := actor; Lines := 0; commitsSet := Some {[ commitHash ]};
             Commits := 0; Files := 1 |}
  end.

(** Exactly [n] bytes of [[a-f0-9]], then the rest. *)
Fixpoint eat_hex (n : nat) (s : string) : option string :=
  match n with
  | O => Some s
  | S n' =>
      match s with
      | String c s' => if GoStr.is_hex_lower c then eat_hex n' s' else None
      | EmptyString => None
      end
  end.

Fixpoint skip_digits (s : string) : string :=
  match s with
  | String c s' => if GoStr.is_digit c then skip_digits s' else s
  | EmptyString => s
  end.

(** [\d+]: one digit at least, then as many as follow. *)
Definition eat_digits (s : string) : option string :=
  match s with
  | String c s' => if GoStr.is_digit c then Some (skip_digits s') else None
  | EmptyString => None
  end.

Definition eat_space (s : string) : option string :=
  match s with
  | String " " s' => Some s'
  | _ => None
  end.

(** [regexp.MustCompile(`^\^?[a-f0-9]{40} \d+ \d+ \d+`).MatchString]: the
    pattern is anchored at the start only. A leading [^] can only be taken
    by [\^?], and a run of digits that a space must follow has to be taken
    whole, so the match is decided in one pass. *)
Definition commitLineRegexp_MatchString (s : string) : bool :=
  let s0 := match s with String "^" r => r | _ => s end in
  match eat_hex 40 s0 with
  | None => false
  | Some s1 =>
      match (s2 ← eat_space s1; s3 ← eat_digits s2; s4 ← eat_space s3;
             s5 ← eat_digits s4; s6 ← eat_space s5; eat_digits s6) with
      | Some _ => true
      | None => false
      end
  end.

(** The body of the [if commitLineRegexp.MatchString(lines[i])] once
    [strconv.Atoi] has succeeded; [after] is [lines[i+1:]]. *)
Definition record_line (config : Config) (commitHash : string) (nLines : Z)
    (after : list string) (actorStats : gmap string ActorStats)
  : outcome (gmap string ActorStats) :=
  l1 ← index after 0;
  let actor := GoStr.TrimPrefix l1 "author " in
  actor ← (if UseCommitter config
           then l5 ← index after 4; Ret (GoStr.TrimPrefix l5 "committer ")
           else Ret actor);
  let actorStats :=
    match actorStats !! actor with
    | Some _ => actorStats
    | None =>
        <[actor := {| Name := ""; Lines := 0; commitsSet := Some ∅;
                      Commits := 0; Files := 1 |}]> actorStats
    end in
  let stats := default ActorStats_zero (actorStats !! actor) in
  match commitsSet stats with
  | None => Panic NilMapAssignment
  | Some commits =>
      Ret (<[actor := {| Name := actor;
                         Lines := GoInt.wrap64 (Lines stats + nLines);
                         commitsSet := Some ({[ commitHash ]} ∪ commits);
                         Commits := Commits stats;
                         Files := Files stats |}]> actorStats)
  end.

(** The loop [for i := 0; i < len(lines); i++] of [calculateStats], on
    [rest = lines[i:]]: [lines[i+1]] is the head of the tail and
    [lines[i+5]] its element 4. After a failed [Atoi] the source does
    [i++; continue], which leaves out the line that follows as well. *)
Fixpoint scan_lines (config : Config) (rest : list string)
    (actorStats : gmap string ActorStats) : outcome (gmap string ActorStats) :=
  match rest with
  | [] => Ret actorStats
  | line :: after =>
      if commitLineRegexp_MatchString line then
        let parts := GoStr.Split line " " in
        commitHash ← index parts 0;
        count ← index parts 3;
        match GoInt.Atoi count with
        | None =>
            match after with
            | [] => Ret actorStats
            | _ :: after' => scan_lines config after' actorStats
            end
        | Some nLines =>
            record_line config commitHash nLines after actorStats
              ≫= scan_lines config after
        end
      else scan_lines config after actorStats
  end.

(** [calculateStats], given what [git] answered for the file. A nil map
    result is the empty map: the caller only ranges over it. *)
Definition calculateStats (config : Config) (git : git_answers)
  : outcome (gmap string ActorStats) :=
  match blame git with
  | None => Ret ∅
  | Some out =>
      if (String.length out =? 0)%nat then
        stats ← infoEmptyFile (log git);
        Ret {[ Name stats := stats ]}
      else
        scan_lines config (GoStr.Split out "010") ∅
  end.

(** *** The reduction of the per-file results *)

(** [existing.commitsSet[commit] = struct{}{}]: writing into the nil map
    panics. *)
Definition add_commit (commit : string) (set : option (gset string))
  : outcome (option (gset string)) :=
  match set with
  | None => Panic NilMapAssignment
  | Some s => Ret (Some ({[ commit ]} ∪ s))
  end.

(** [for commit := range info.commitsSet { ... }]; ranging over the nil map
    runs the body no times. *)
Definition add_commits (existing info : option (gset string))
  : outcome (option (gset string)) :=
  for_range add_commit (elements (default ∅ info)) existing.

(** The body of [for actor, info := range stats]. When the identity is new
    the entry is [info] itself, commit set included: the set is then shared
    with the per-file map, which nothing reads afterwards. *)
Definition merge_actor (entry : string * ActorStats)
    (finalStats : gmap string ActorStats) : outcome (gmap string ActorStats) :=
  let '(actor, info) := entry in
  match finalStats !! actor with
  | Some existing =>
      commits ← add_commits (commitsSet existing) (commitsSet info);
      Ret (<[actor := {| Name := Name existing;
                         Lines := GoInt.wrap64 (Lines existing + Lines info);
                         commitsSet := commits;
                         Commits := Commits existing;
                         Files := GoInt.wrap64 (Files existing + Files info)
                      |}]> finalStats)
  | None => Ret (<[actor := info]> finalStats)
  end.

(** One iteration of [for stats := range resultsChan]. *)
Definition merge_file (stats : gmap string ActorStats)
    (finalStats : gmap string ActorStats) : outcome (gmap string ActorStats) :=
  for_range merge_actor (map_to_list stats) finalStats.

(** [stats.Commits = len(stats.commitsSet)] *)
Definition finalize (stats : ActorStats) : ActorStats :=
  {| Name := Name stats; Lines := Lines stats;
     commitsSet := commitsSet stats;
     Commits := Z.of_nat (size (default ∅ (commitsSet stats)));
     Files := Files stats |}.

(** The two loops of [aggregateStats] that follow the fan-out, on the
    per-file maps in the order [resultsChan] delivered them. *)
Definition reduce (results : list (gmap string ActorStats))
  : outcome (gmap string ActorStats) :=
  match for_range merge_file results ∅ with
  | Ret finalStats => Ret (finalize <$> finalStats)
  | Panic p => Panic p
  end.

(** [aggregateStats]: [arrival] lists the files in the order in which their
    workers delivered; a worker that panics takes the process down. *)
Definition aggregateStats (config : Config) (git : string -> git_answers)
    (arrival : list string) : outcome (gmap string ActorStats) :=
  results ← collect (fun file => calculateStats config (git file)) arrival;
  reduce results.

(** *** Ranking *)

(** The closure handed to [sort.Slice]. *)
Definition less (orderBy : string) (a b : ActorStats) : bool :=
  if (Commits a =? Commits b) && (Lines a =? Lines b) && (Files a =? Files b)
  then String.ltb (Name a) (Name b)
  else if String.eqb orderBy "commits" then
    if negb (Commits a =? Commits b) then Commits a >? Commits b
    else if negb (Lines a =? Lines b) then Lines a >? Lines b
    else Files a >? Files b
  else if String.eqb orderBy "files" then
    if negb (Files a =? Files b) then Files a >? Files b
    else if negb (Lines a =? Lines b) then Lines a >? Lines b
    else Commits a >? Commits b
  else
    if negb (Lines a =? Lines b) then Lines a >? Lines b
    else if negb (Commits a =? Commits b) then Commits a >? Commits b
    else Files a >? Files b.

Fixpoint insert_by (lt : ActorStats -> ActorStats -> bool) (x : ActorStats)
    (l : list ActorStats) : list ActorStats :=
  match l with
  | [] => [x]
  | y :: l' => if lt x y then x :: l else y :: insert_by lt x l'
  end.

(** [sort.Slice] promises a permutation in which no element is [less]
    than one before it; an insertion sort stands for it. *)
Definition sortByConfig (actors : list ActorStats) (orderBy : string)
  : list ActorStats :=
  foldr (insert_by (less orderBy)) [] actors.

(** *** Validation, listing and output order *)

(** What [validateConfig] does to the process: it returns, or it writes a
    message to the standard error and calls [os.Exit]. *)
Inductive validation : Type :=
  | Valid
  | Exit (code : Z) (message : string).

Definition validFormats : gmap string bool :=
  {[ "tabular" := true; "csv" := true; "json" := true; "json-lines" := true ]}.

Definition validOrders : gmap string bool :=
  {[ "lines" := true; "commits" := true; "files" := true ]}.

(** [validateConfig]; [cat_file] tells whether [git cat-file -e] on the
    revision ran without error. *)
Definition validateConfig (config : Config) (cat_file : bool) : validation :=
  match validFormats !! Format config with
  | None =>
      Exit 2 ("Invalid format: " +:+ Format config +:+ String "010" "")
  | Some _ =>
      match validOrders !! OrderBy config with
      | None =>
          Exit 2 ("Invalid order-by value: " +:+ OrderBy config
                  +:+ String "010" "")
      | Some _ =>
          if cat_file then Valid
          else Exit 2 ("Invalid revision: " +:+ Revision config
                       +:+ String "010" "")
      end
  end.

(** [bufio.MaxScanTokenSize]. *)
Definition MaxScanTokenSize : Z := 64 * 1024.

(** [dropCR] of [bufio]: the data without a carriage return that ends it. *)
Fixpoint dropCR (data : string) : string :=
  match data with
  | EmptyString => EmptyString
  | String c EmptyString => if Ascii.eqb c "013" then EmptyString else data
  | String c rest => String c (dropCR rest)
  end.

(** The lines [bufio.ScanLines] cuts a text into, before [dropCR]: what
    stands before each newline, and what follows the last one when that is
    not empty. *)
Fixpoint scan_raw (text : string) : list string :=
  match text with
  | EmptyString => []
  | String c rest =>
      if Ascii.eqb c "010" then EmptyString :: scan_raw rest
      else match scan_raw rest with
           | line :: lines => String c line :: lines
           | [] => [String c EmptyString]
           end
  end.

(** [getFiles], given the answer of [git ls-tree -r --name-only] ([None]
    when [cmd.Run()] returned an error). The scanner takes a line only if
    the line and the byte that ends it fit its buffer of [MaxScanTokenSize]
    bytes; past a longer line [scanner.Err()] is [ErrTooLong] and the
    function returns nil, as it does when the command fails. *)
Definition getFiles (ls_tree : option string) : list string :=
  match ls_tree with
  | None => []
  | Some out =>
      let raw := scan_raw out in
      if forallb (fun line =>
                    Z.of_nat (String.length line) <? MaxScanTokenSize) raw
      then dropCR <$> raw
      else []
  end.

(** The slice [outputResults] hands to the formats: the values of the
    aggregate in the order in which the runtime ranged over the map
    ([range_order], some enumeration of its entries), sorted. *)
Definition outputResults_actors (range_order : list (string * ActorStats))
    (config : Config) : list ActorStats :=
  sortByConfig range_order.*2 (OrderBy config).

(** A run of the command of [main]: the table is loaded into the
    configuration, the files are listed, the filter stage runs until the
    channel is closed, the workers of [aggregateStats] deliver in some order
    [arrival] of the files sent, and [result] is what the reduction gives. *)
Definition main_run (filepath_Match : string -> string -> bool)
    (ToLower : string -> string) (table : list configs.languageExtension)
    (config : Config) (ls_tree : option string) (git : string -> git_answers)
    (result : outcome (gmap string ActorStats)) : Prop :=
  let config := set_ExtensionsMap config
                  (configs.LoadExtensionsMap ToLower table) in
  ∃ s arrival,
    rtc (parallelFilter_step filepath_Match ToLower config)
        (parallelFilter_init (getFiles ls_tree)) s ∧
    closed s = true ∧ arrival ≡ₚ sent s ∧
    aggregateStats config git arrival = result.

End gitfame.

(** * Vocabulary of the properties *)

Import gitfame.

Module Spec.

(** What one [range] step of the reduction does to the entry of one
    identity: [cur] is [finalStats[actor]] before the step ([None] when
    absent), [info] the per-file statistic merged in. *)
Definition merge_entry (cur : option ActorStats) (info : ActorStats)
  : outcome ActorStats :=
  match cur with
  | Some existing =>
      commits ← add_commits (commitsSet existing) (commitsSet info);
      Ret {| Name := Name existing;
             Lines := GoInt.wrap64 (Lines existing + Lines info);
             commitsSet := commits;
             Commits := Commits existing;
             Files := GoInt.wrap64 (Files existing + Files info) |}
  | None => Ret info
  end.

Fixpoint fold_entry (cur : option ActorStats) (infos : list ActorStats)
  : outcome (option ActorStats) :=
  match infos with
  | [] => Ret cur
  | info :: infos' => st ← merge_entry cur info; fold_entry (Some st) infos'
  end.

(** The per-file statistics of identity [a], in the order of [results]. *)
Definition infos (a : string) (results : list (gmap string ActorStats))
  : list ActorStats :=
  omap (fun stats : gmap string ActorStats => stats !! a) results.

(** The commit identifiers a statistic carries (none for the nil map). *)
Definition commits_in (st : ActorStats) : gset string :=
  default ∅ (commitsSet st).

(** The union, over all files, of the commit identifiers attributed to
    [a]. *)
Definition commit_ids (a : string) (results : list (gmap string ActorStats))
  : gset string :=
  ⋃ (commits_in <$> infos a results).

(** The sum of the per-file commit counts of [a]: what the union is not. *)
Definition commit_count_sum (a : string)
    (results : list (gmap string ActorStats)) : Z :=
  foldr Z.add 0
    ((fun st => Z.of_nat (size (commits_in st))) <$> infos a results).

(** *** Records of a blame output *)

Fixpoint count_byte (c : ascii) (s : string) : nat :=
  match s with
  | EmptyString => 0%nat
  | String b s' => ((if Ascii.eqb b c then 1 else 0) + count_byte c s')%nat
  end.

(** The header of a record: its commit and its count of lines, [None]
    for the count when [Atoi] rejects the field. *)
Definition parse_header (line : string) : option (string * option Z) :=
  if commitLineRegexp_MatchString line then
    let parts := GoStr.Split line " " in
    match parts !! 0%nat, parts !! 3%nat with
    | Some hash, Some count => Some (hash, GoInt.Atoi count)
    | _, _ => None
    end
  else None.

Definition is_header (line : string) : bool :=
  commitLineRegexp_MatchString line.

Definition fails_to_parse (line : string) : bool :=
  match parse_header line with
  | Some (_, None) => true
  | _ => false
  end.

(** A record that did parse: commit, count, and the lines after its
    header, among which the loop looks for the identity. *)
Definition record : Type := string * Z * list string.

(** Every record of the output whose header parses. *)
Fixpoint parsed_records (lines : list string) : list record :=
  match lines with
  | [] => []
  | line :: after =>
      match parse_header line with
      | Some (hash, Some n) => (hash, n, after) :: parsed_records after
      | _ => parsed_records after
      end
  end.

(** The records whose header parses and does not stand on the line right
    after a header that failed to parse. *)
Fixpoint reached_records (lines : list string) : list record :=
  match lines with
  | [] => []
  | line :: after =>
      match parse_header line with
      | Some (hash, Some n) => (hash, n, after) :: reached_records after
      | Some (_, None) =>
          match after with
          | [] => []
          | _ :: after' => reached_records after'
          end
      | None => reached_records after
      end
  end.

(** The per-identity map accumulated from a list of records. *)
Definition accumulate (config : Config) (records : list record)
    (actorStats : gmap string ActorStats) : outcome (gmap string ActorStats) :=
  for_range (fun '(hash, n, after) => record_line config hash n after)
            records actorStats.

(** No header stands on the line right after a header that failed to
    parse: in porcelain output that line names the author. *)
Fixpoint author_follows_failure (lines : list string) : bool :=
  match lines with
  | [] => true
  | line :: after =>
      (if fails_to_parse line
       then match after with
            | next :: _ => negb (is_header next)
            | [] => true
            end
       else true) && author_follows_failure after
  end.

(** The number of lines after a header that the loop reads: the author is
    on the first, the committer on the fifth. *)
Definition identity_lines (config : Config) : nat :=
  if UseCommitter config then 5%nat else 1%nat.

Definition record_complete (config : Config) (r : record) : bool :=
  (identity_lines config <=? length r.2)%nat.

(** The identity that a complete record is attributed to. *)
Definition record_identity (config : Config) (r : record) : string :=
  if UseCommitter config
  then GoStr.TrimPrefix (default "" (r.2 !! 4%nat)) "committer "
  else GoStr.TrimPrefix (default "" (r.2 !! 0%nat)) "author ".

(** The answers of [git] on which no slice access of the extractor is out
    of range: every record the loop reaches is followed by the lines read
    for it, and the answer of [git log] has two lines at least. *)
Definition answers_complete (config : Config) (git : git_answers) : bool :=
  match blame git with
  | None => true
  | Some out =>
      if (String.length out =? 0)%nat then
        match log git with
        | None => true
        | Some log_out => (1 <=? count_byte "010" log_out)%nat
        end
      else forallb (record_complete config)
                   (reached_records (GoStr.Split out "010"))
  end.

(** The extractor returns the map accumulated from every record that did
    parse: a record that fails to parse is left out, and it alone. *)
Definition skips_only_failed_record (config : Config) (out : string) : Prop :=
  calculateStats config {| blame := Some out; log := None |} =
    accumulate config (parsed_records (GoStr.Split out "010")) ∅.

(** The extractor returns, whatever [git] answered. *)
Definition never_panics (config : Config) (git : git_answers) : Prop :=
  ∃ stats, calculateStats config git = Ret stats.

(** What the extractor leaves for an identity it met in a record. *)
Definition partial_stat (a : string) (st : ActorStats) : Prop :=
  Name st = a ∧ (∃ s, commitsSet st = Some s ∧ s ≠ ∅) ∧
  Commits st = 0 ∧ Files st = 1.

Definition partial_stats (stats : gmap string ActorStats) : Prop :=
  ∀ a st, stats !! a = Some st → partial_stat a st.

(** The fallback query failed: the case in which the extractor stores the
    zero statistic. *)
Definition fallback_failed (git : git_answers) : bool :=
  match blame git, log git with
  | Some out, None => (String.length out =? 0)%nat
  | _, _ => false
  end.

(** An entry of [finalStats] made of such statistics only. *)
Definition merged_stat (a : string) (cur : option ActorStats) : Prop :=
  ∀ existing, cur = Some existing →
    Name existing = a ∧ is_Some (commitsSet existing) ∧ Commits existing = 0.

(** *** The language filter *)

(** [suffix] ends [s]. *)
Definition is_suffix (suffix s : string) : Prop := ∃ p, s = p +:+ suffix.

(** The two strings end with the same non-empty string. *)
Definition common_suffix (s1 s2 : string) : Prop :=
  ∃ suffix, suffix ≠ "" ∧ is_suffix suffix s1 ∧ is_suffix suffix s2.

(** The portion of a path after its last dot, if it has a dot. *)
Fixpoint after_last_dot (path : string) : option string :=
  match path with
  | EmptyString => None
  | String c rest =>
      match after_last_dot rest with
      | Some ext => Some ext
      | None => if Ascii.eqb c "." then Some rest else None
      end
  end.

(** The language filter as the specification words it: the extension of the
    path and an extension registered for a requested language have a
    non-empty common suffix. *)
Definition language_pass_by_common_suffix (ToLower : string -> string)
    (path : string) (config : Config) : Prop :=
  Languages config = [] ∨
  ∃ lang exts ext,
    lang ∈ Languages config ∧
    ExtensionsMap config !! ToLower lang = Some exts ∧ ext ∈ exts ∧
    common_suffix (default "" (after_last_dot path)) ext.

(** The language filter as the code tests it: an extension registered for a
    requested language ends [filepath.Ext(path)]. *)
Definition language_pass_by_suffix (ToLower : string -> string)
    (path : string) (config : Config) : Prop :=
  Languages config = [] ∨
  ∃ lang exts ext,
    lang ∈ Languages config ∧
    ExtensionsMap config !! ToLower lang = Some exts ∧ ext ∈ exts ∧
    is_suffix ext (GoStr.Ext path).

(** The same against the decoded table: the requested name and the name of
    a language of the table are equal once both are lowered. *)
Definition language_pass_by_table (ToLower : string -> string)
    (table : list configs.languageExtension)
    (path : string) (config : Config) : Prop :=
  Languages config = [] ∨
  ∃ lang entry ext,
    lang ∈ Languages config ∧ entry ∈ table ∧
    ToLower (configs.Name entry) = ToLower lang ∧
    ext ∈ configs.Extensions entry ∧
    is_suffix ext (GoStr.Ext path).

(** *** The filter stage *)

(** How many times a path occurs in a list. *)
Definition occurrences (file : string) (l : list string) : nat :=
  count_occ String.string_dec l file.

(** What holds of every state the filter stage can reach from [files]:
    the counter of the wait group is the number of workers that have not
    called [Done]; the closing goroutine starts after the last worker; the
    channel is closed by it, once the counter is zero; and what was sent,
    with what the pending workers will send, is what passes among [files]. *)
Definition filter_inv (pass : string -> bool) (files : list string)
    (s : filter_state) : Prop :=
  wg s = (length (running s) + finishing s)%nat ∧
  (closer s = true → unspawned s = []) ∧
  (closed s = true → closer s = true ∧ wg s = 0%nat) ∧
  sent s ++ List.filter pass (running s ++ unspawned s)
    ≡ₚ List.filter pass files.

(** *** Ranking *)

(** The numeric keys in the order the cascade compares them. *)
Definition cascade (orderBy : string) (a : ActorStats) : Z * Z * Z :=
  if String.eqb orderBy "commits" then (Commits a, Lines a, Files a)
  else if String.eqb orderBy "files" then (Files a, Lines a, Commits a)
  else (Lines a, Commits a, Files a).

(** [a] comes before [b]: greater on the first key of the cascade on which
    they differ, or equal on all three and smaller by name. *)
Definition ranks_before (orderBy : string) (a b : ActorStats) : Prop :=
  let '(a1, a2, a3) := cascade orderBy a in
  let '(b1, b2, b3) := cascade orderBy b in
  a1 > b1 ∨
  (a1 = b1 ∧ (a2 > b2 ∨
  (a2 = b2 ∧ (a3 > b3 ∨
  (a3 = b3 ∧ String.ltb (Name a) (Name b) = true))))).

(** The fields a ranked record shows. *)
Definition shown (a : ActorStats) : string * Z * Z * Z :=
  (Name a, Lines a, Commits a, Files a).

(** No element is ranked before one that precedes it. *)
Definition ranked (orderBy : string) (l : list ActorStats) : Prop :=
  StronglySorted (fun a b => less orderBy b a = false) l.

(** *** Listing *)

(** A path that [git ls-tree] can print on a line of its own and the
    scanner hands back unchanged: no newline in it, no carriage return at its
    end, shorter than the buffer of the scanner. *)
Definition listable (file : string) : bool :=
  (count_byte "010" file =? 0)%nat &&
  negb (GoStr.HasSuffix file (String "013" EmptyString)) &&
  (Z.of_nat (String.length file) <? MaxScanTokenSize).

(** One path a line, each line ended by a newline. *)
Definition path_lines (files : list string) : string :=
  foldr (fun file out => file +:+ String "010" out) EmptyString files.

(** *** The statistic of one identity in one file *)

(** The records attributed to identity [a]. *)
Definition records_of (config : Config) (a : string) (records : list record)
  : list record :=
  List.filter (fun r => String.eqb (record_identity config r) a) records.





(** The lines the records count, as an exact sum. *)
Definition lines_of (records : list record) : Z :=
  foldr (fun r sum => r.1.2 + sum) 0 records.

Definition hashes_of (records : list record) : gset string :=
  list_to_set ((fun r : record => r.1.1) <$> records).

(** The entry of [a] after the records [records] of [a] were added to the
    entry [cur]. *)
Definition entry_after (a : string) (cur : option ActorStats)
    (records : list record) : option ActorStats :=
  match records with
  | [] => cur
  | _ =>
      Some {| Name := a;
              Lines := GoInt.wrap64 (from_option Lines 0 cur + lines_of records);
              commitsSet :=
                Some (hashes_of records ∪ from_option commits_in ∅ cur);
              Commits := 0; Files := 1 |}
  end.

(** *** Header lines *)

Definition all_bytes (p : ascii -> bool) (s : string) : bool :=
  forallb p (list_ascii_of_string s).

(** Forty bytes of [[a-f0-9]]. *)
Definition hex40 (s : string) : Prop :=
  String.length s = 40%nat ∧ all_bytes GoStr.is_hex_lower s = true.

(** A decimal number: one digit at least, digits only. *)
Definition decimal (s : string) : Prop :=
  s ≠ "" ∧ all_bytes GoStr.is_digit s = true.

(** The header of a group of lines as [git blame --line-porcelain] prints
    it: the commit, with a caret before it for a boundary commit, the line in
    the original file, the line in the final file, the number of lines. *)
Definition header_line (boundary : bool) (commit orig final count : string)
  : string :=
  (if boundary then "^" else "") +:+ commit +:+ " " +:+ orig +:+ " " +:+ final
  +:+ " " +:+ count.

(** The line without the caret that may start it. *)
Definition strip_caret (s : string) : string :=
  match s with
  | String "^" r => r
  | _ => s
  end.

(** What the pattern asks of the line after the caret. *)
Definition header_body (s0 : string) : bool :=
  match eat_hex 40 s0 with
  | None => false
  | Some s1 =>
      match (s2 ← eat_space s1; s3 ← eat_digits s2; s4 ← eat_space s3;
             s5 ← eat_digits s4; s6 ← eat_space s5; eat_digits s6) with
      | Some _ => true
      | None => false
      end
  end.

(** The lines that follow the header of a group: the author on the first,
    the committer on the fifth. *)
Definition group_lines (author mail time zone committer : string)
    (rest : list string) : list string :=
  ("author " +:+ author) :: mail :: time :: zone
  :: ("committer " +:+ committer) :: rest.

(** Where a run of digits stops: at the end, or before a byte that is no
    digit. *)
Definition digits_end (rest : string) : Prop :=
  match rest with
  | String c _ => GoStr.is_digit c = false
  | EmptyString => True
  end.

(** *** The table of extensions *)

(** The extensions of the entries of the table whose lowered name is [k], in
    the order of the table. *)
Definition extensions_of (ToLower : string -> string)
    (table : list configs.languageExtension) (k : string) : list string :=
  concat (configs.Extensions <$>
            List.filter (fun entry =>
                           String.eqb (ToLower (configs.Name entry)) k) table).

(** *** Sums over the files *)

Definition sum_of (field : ActorStats -> Z) (infos : list ActorStats) : Z :=
  foldr (fun info sum => field info + sum) 0 infos.

Definition in_int_range (z : Z) : Prop := GoInt.min_int ≤ z ≤ GoInt.max_int.

(** *** The key an order is named after *)

Definition named_key (orderBy : string) : option (ActorStats -> Z) :=
  if String.eqb orderBy "lines" then Some Lines
  else if String.eqb orderBy "commits" then Some Commits
  else if String.eqb orderBy "files" then Some Files
  else None.

End Spec.

(** Inputs for the worked examples: the text [git blame --line-porcelain]
    prints for a group of lines, and a configuration with every filter
    empty. *)
Module Fixture.

Definition newline : string := String "010" EmptyString.

(** A group of [n] lines that commit [hash] is blamed for, the first being
    line [first]: the header and the fields that follow it, the author on
    the line after the header and the committer four lines further. *)
Definition blame_group (hash first n author committer : string)
  : list string :=
  [ hash +:+ " " +:+ first +:+ " " +:+ first +:+ " " +:+ n;
    "author " +:+ author;
    "author-mail <a@example.org>";
    "author-time 1700000000";
    "author-tz +0000";
    "committer " +:+ committer;
    "committer-mail <c@example.org>";
    "committer-time 1700000000";
    "committer-tz +0000";
    "summary change";
    "filename file";
    String "009" "content" ].

Definition unlines (lines : list string) : string :=
  foldr (fun l out => l +:+ newline +:+ out) EmptyString lines.

Definition C1 : string := "1111111111111111111111111111111111111111".
Definition C2 : string := "2222222222222222222222222222222222222222".

Definition config (useCommitter : bool) : Config :=
  {| Repository := "."; Revision := "HEAD"; OrderBy := "lines";
     UseCommitter := useCommitter; Format := "tabular";
     Extensions := []; Languages := []; Exclude := []; RestrictTo := [];
     ExtensionsMap := ∅ |}.

Definition no_answer : git_answers := {| blame := None; log := None |}.

(** [a.go]: ten lines by Dev1 in commit [C1]; [b.go]: five lines by Dev1
    in [C1], then five by Dev2 in [C2]. *)
Definition two_files (file : string) : git_answers :=
  if String.eqb file "a.go" then
    {| blame := Some (unlines (blame_group C1 "1" "10" "Dev1" "Dev1"));
       log := None |}
  else if String.eqb file "b.go" then
    {| blame := Some (unlines (blame_group C1 "1" "5" "Dev1" "Dev1" ++
                               blame_group C2 "6" "5" "Dev2" "Dev2"));
       log := None |}
  else no_answer.

Definition two_files_final : gmap string ActorStats :=
  {[ "Dev1" := {| Name := "Dev1"; Lines := 15; commitsSet := Some {[ C1 ]};
                  Commits := 1; Files := 2 |};
     "Dev2" := {| Name := "Dev2"; Lines := 5; commitsSet := Some {[ C2 ]};
                  Commits := 1; Files := 1 |} ]}.

(** A count of lines that does not fit an [int]. *)
Definition huge : string := "99999999999999999999".


(** A header with an unreadable count, and the header of the next record
    on the very next line. *)
Definition bad_header_then_header : string :=
  unlines ((C1 +:+ " 1 1 " +:+ huge) :: blame_group C2 "2" "5" "Dev2" "Dev2").

(** A header that ends the output. *)
Definition lone_header : string := C1 +:+ " 1 1 1".

(** Dev1 on two runs of [a.go] that a run of Dev2 separates. *)
Definition split_runs : string :=
  unlines (blame_group C1 "1" "3" "Dev1" "Dev1" ++
           blame_group C2 "4" "2" "Dev2" "Dev2" ++
           blame_group C1 "6" "4" "Dev1" "Dev1").


(** [git log] fails for the empty file [empty.txt]; the three lines of
    [anon.go] belong to a commit whose author name is empty. *)
Definition nameless (file : string) : git_answers :=
  if String.eqb file "empty.txt" then {| blame := Some ""; log := None |}
  else if String.eqb file "anon.go" then
    {| blame := Some (unlines (blame_group C1 "1" "3" "" ""));
       log := None |}
  else no_answer.

(** The last commit that touched an empty file is Carol's. *)
Definition carol_log : string := C1 +:+ newline +:+ "Carol".

(** A table of two languages, and a request for C. *)
Definition languages : list configs.languageExtension :=
  [ {| configs.Name := "C"; configs.Type' := "programming";
       configs.Extensions := [".c"; ".h"] |};
    {| configs.Name := "Go"; configs.Type' := "programming";
       configs.Extensions := [".go"] |} ].

Definition only_C : Config :=
  {| Repository := "."; Revision := "HEAD"; OrderBy := "lines";
     UseCommitter := false; Format := "tabular";
     Extensions := []; Languages := ["C"]; Exclude := []; RestrictTo := [];
     ExtensionsMap :=
       configs.LoadExtensionsMap GoStr.ascii_ToLower languages |}.

(** [filepath.Match] on patterns without meta-characters, which match
    their own text only. *)
Definition literal_Match (pattern name : string) : bool :=
  String.eqb pattern name.

Definition only_go : Config :=
  {| Repository := "."; Revision := "HEAD"; OrderBy := "lines";
     UseCommitter := false; Format := "tabular";
     Extensions := [".go"]; Languages := []; Exclude := []; RestrictTo := [];
     ExtensionsMap := ∅ |}.

(** The filter stage after both workers and the closing goroutine ran. *)
Definition filtered : filter_state :=
  {| unspawned := []; running := []; finishing := 0%nat; wg := 0%nat;
     closer := true; sent := ["main.go"]; closed := true |}.

(** A path of as many bytes as the buffer of the scanner holds. *)
Definition long_path : string :=
  string_of_list_ascii (repeat "a"%char (Z.to_nat MaxScanTokenSize)).

Definition actor (name : string) (lines commits files : Z) : ActorStats :=
  {| Name := name; Lines := lines; commitsSet := None; Commits := commits;
     Files := files |}.

Definition Bob : ActorStats := actor "Bob" 100 5 2.
Definition Alice : ActorStats := actor "Alice" 100 3 2.
Definition Zoe : ActorStats := actor "Zoe" 50 9 1.

End Fixture.

(** * Properties *)

(** ** The reduction, one identity at a time *)

Section ReduceFacts.

Implicit Types (final stats : gmap string ActorStats).
Implicit Types (results : list (gmap string ActorStats)).

Lemma for_range_add_commit_Some (l : list string) (d : gset string) :
  for_range add_commit l (Some d) = Ret (Some (list_to_set l ∪ d)).
Proof.
  revert d. induction l as [|c l IH]; intros d; simpl.
  - f_equal. f_equal. set_solver.
  - rewrite IH. f_equal. f_equal. set_solver.
Qed.

Lemma add_commits_Some (d : gset string) (info : option (gset string)) :
  add_commits (Some d) info = Ret (Some (default ∅ info ∪ d)).
Proof.
  unfold add_commits. rewrite for_range_add_commit_Some.
  by rewrite list_to_set_elements_L.
Qed.

Lemma add_commits_None (info : option (gset string)) :
  add_commits None info =
    if decide (default ∅ info = ∅) then Ret None else Panic NilMapAssignment.
Proof.
  unfold add_commits. destruct (decide _) as [E|E].
  - rewrite E. by rewrite elements_empty.
  - destruct (elements (default ∅ info)) as [|c l] eqn:El; [|done].
    apply elements_empty_inv in El. by apply leibniz_equiv in El.
Qed.

Lemma add_commits_union existing info commits :
  add_commits existing info = Ret commits →
  default ∅ commits = default ∅ existing ∪ default ∅ info.
Proof.
  destruct existing as [d|].
  - rewrite add_commits_Some. intros [= <-]. simpl. set_solver.
  - rewrite add_commits_None. case_decide as E; [|done].
    intros [= <-]. simpl. rewrite E. set_solver.
Qed.

Lemma merge_actor_entry a info final :
  merge_actor (a, info) final =
    st ← Spec.merge_entry (final !! a) info; Ret (<[a := st]> final).
Proof.
  unfold merge_actor, Spec.merge_entry.
  destruct (final !! a) as [existing|]; [|done].
  by destruct (add_commits _ _).
Qed.

(** What the inner loop leaves in [finalStats], whatever the order in which
    the Go runtime ranges over the per-file map. *)
Lemma for_range_merge_actor (l : list (string * ActorStats)) :
  NoDup l.*1 → ∀ final final',
  for_range merge_actor l final = Ret final' →
  ∀ a, (a ∉ l.*1 → final' !! a = final !! a) ∧
       (∀ info, (a, info) ∈ l →
          ∃ st, Spec.merge_entry (final !! a) info = Ret st ∧
                final' !! a = Some st).
Proof.
  induction l as [|[b i] l IH]; intros Hnd final final' Hrun a.
  - simpl in Hrun. injection Hrun as <-. split; [done|].
    intros info Hin. by apply elem_of_nil in Hin.
  - apply NoDup_cons in Hnd as [Hb Hnd]. simpl in Hb.
    cbn [for_range] in Hrun. rewrite merge_actor_entry in Hrun.
    destruct (Spec.merge_entry (final !! b) i) as [st|p] eqn:Hst; [|done].
    simpl in Hrun.
    destruct (IH Hnd _ _ Hrun a) as [IHout IHin]. split.
    + intros Hnotin. rewrite fmap_cons, not_elem_of_cons in Hnotin.
      destruct Hnotin as [Hab Hal]. simpl in Hab.
      rewrite (IHout Hal). by rewrite lookup_insert_ne.
    + intros info Hin. apply elem_of_cons in Hin as [[= -> ->]|Hin].
      * exists st. split; [done|].
        rewrite (proj1 (IH Hnd _ _ Hrun b) Hb). by rewrite lookup_insert_eq.
      * assert (a ≠ b) as Hab.
        { intros ->. apply Hb. apply (list_elem_of_fmap_2 fst) in Hin.
          exact Hin. }
        destruct (IHin _ Hin) as (st' & Hm & Hl).
        rewrite lookup_insert_ne in Hm by done. eauto.
Qed.

Lemma for_range_merge_actor_total (l : list (string * ActorStats)) :
  NoDup l.*1 → ∀ final,
  (∀ a info, (a, info) ∈ l →
     ∃ st, Spec.merge_entry (final !! a) info = Ret st) →
  ∃ final', for_range merge_actor l final = Ret final'.
Proof.
  induction l as [|[b i] l IH]; intros Hnd final Hok.
  - by eexists.
  - apply NoDup_cons in Hnd as [Hb Hnd]. simpl in Hb.
    cbn [for_range]. rewrite merge_actor_entry.
    destruct (Hok b i) as [st Hst]; [apply elem_of_cons; by left|].
    rewrite Hst. simpl. apply IH; [done|].
    intros a info Hin.
    assert (a ≠ b) as Hab.
    { intros ->. apply Hb. apply (list_elem_of_fmap_2 fst) in Hin.
      exact Hin. }
    rewrite lookup_insert_ne by done. apply Hok. apply elem_of_cons. by right.
Qed.

Lemma merge_file_lookup stats final final' a :
  merge_file stats final = Ret final' →
  match stats !! a with
  | None => final' !! a = final !! a
  | Some info => ∃ st, Spec.merge_entry (final !! a) info = Ret st ∧
                       final' !! a = Some st
  end.
Proof.
  unfold merge_file. intros Hrun.
  pose proof (for_range_merge_actor _ (NoDup_fst_map_to_list stats)
                _ _ Hrun a) as [Hout Hin].
  destruct (stats !! a) as [info|] eqn:Ha.
  - apply Hin. by apply elem_of_map_to_list.
  - apply Hout. intros Hel.
    apply list_elem_of_fmap in Hel as ([a' i] & -> & Hel).
    apply elem_of_map_to_list in Hel. simpl in Ha. congruence.
Qed.

Lemma merge_file_total stats final :
  (∀ a info, stats !! a = Some info →
     ∃ st, Spec.merge_entry (final !! a) info = Ret st) →
  ∃ final', merge_file stats final = Ret final'.
Proof.
  intros Hok. apply for_range_merge_actor_total.
  - apply NoDup_fst_map_to_list.
  - intros a info Hin. apply Hok. by apply elem_of_map_to_list.
Qed.

(** The outer loop, seen from one identity. *)
Lemma for_range_merge_file results : ∀ final final',
  for_range merge_file results final = Ret final' →
  ∀ a, Spec.fold_entry (final !! a) (Spec.infos a results) = Ret (final' !! a).
Proof.
  induction results as [|stats results IH]; intros final final' Hrun a.
  - simpl in Hrun. by injection Hrun as <-.
  - cbn [for_range] in Hrun.
    destruct (merge_file stats final) as [final1|p] eqn:Hfile; [|done].
    simpl in Hrun. specialize (IH _ _ Hrun a).
    pose proof (merge_file_lookup _ _ _ a Hfile) as Hlk.
    unfold Spec.infos in *. cbn [omap list_omap].
    destruct (stats !! a) as [info|]; simpl.
    + destruct Hlk as (st & -> & Hst). simpl. by rewrite <- Hst.
    + by rewrite <- Hlk.
Qed.

Lemma for_range_merge_file_total results : ∀ final,
  (∀ a, ∃ o, Spec.fold_entry (final !! a) (Spec.infos a results) = Ret o) →
  ∃ final', for_range merge_file results final = Ret final'.
Proof.
  induction results as [|stats results IH]; intros final Hok.
  - by eexists.
  - cbn [for_range].
    destruct (merge_file_total stats final) as [final1 Hfile].
    { intros a info Ha. destruct (Hok a) as [o Ho].
      unfold Spec.infos in Ho. cbn [omap list_omap] in Ho. rewrite Ha in Ho.
      simpl in Ho.
      destruct (Spec.merge_entry (final !! a) info) as [st|]; [eauto|done]. }
    rewrite Hfile. simpl. apply IH. intros a.
    destruct (Hok a) as [o Ho]. exists o.
    pose proof (merge_file_lookup _ _ _ a Hfile) as Hlk.
    unfold Spec.infos in *. cbn [omap list_omap] in Ho.
    destruct (stats !! a) as [info|]; simpl in Ho.
    + destruct Hlk as (st & Hm & ->). by rewrite Hm in Ho.
    + by rewrite Hlk.
Qed.

Lemma reduce_lookup results final a :
  reduce results = Ret final →
  ∃ o, Spec.fold_entry None (Spec.infos a results) = Ret o ∧
       final !! a = finalize <$> o.
Proof.
  unfold reduce.
  destruct (for_range merge_file results ∅) as [acc|p] eqn:Hrun; [|done].
  intros [= <-]. exists (acc !! a). split.
  - pose proof (for_range_merge_file _ _ _ Hrun a) as H.
    by rewrite lookup_empty in H.
  - by rewrite lookup_fmap.
Qed.

(** The commit identifiers that the entry of one identity ends up with. *)
Lemma merge_entry_commits cur info st :
  Spec.merge_entry cur info = Ret st →
  Spec.commits_in st =
    from_option Spec.commits_in ∅ cur ∪ Spec.commits_in info.
Proof.
  destruct cur as [existing|]; simpl.
  - destruct (add_commits _ _) as [cs|] eqn:Hadd; [|done].
    intros [= <-]. unfold Spec.commits_in. simpl.
    by apply add_commits_union.
  - intros [= <-]. set_solver.
Qed.

Lemma fold_entry_commits infos : ∀ cur o,
  Spec.fold_entry cur infos = Ret o →
  from_option Spec.commits_in ∅ o =
    from_option Spec.commits_in ∅ cur ∪ ⋃ (Spec.commits_in <$> infos).
Proof.
  induction infos as [|info infos IH]; intros cur o Hrun.
  - simpl in Hrun. injection Hrun as <-. simpl. set_solver.
  - cbn [Spec.fold_entry] in Hrun.
    destruct (Spec.merge_entry cur info) as [st|] eqn:Hst; [|done].
    simpl in Hrun. rewrite (IH _ _ Hrun). simpl.
    rewrite (merge_entry_commits _ _ _ Hst). set_solver.
Qed.

End ReduceFacts.

(** ** Commits are counted by union *)

Lemma commit_ids_nil a : Spec.commit_ids a [] = ∅.
Proof. done. Qed.

Lemma commit_ids_cons a (stats : gmap string ActorStats) results :
  Spec.commit_ids a (stats :: results) =
    from_option Spec.commits_in ∅ (stats !! a) ∪ Spec.commit_ids a results.
Proof.
  unfold Spec.commit_ids, Spec.infos. cbn [omap list_omap].
  destruct (stats !! a) as [info|]; cbn [from_option option_list app].
  - by rewrite fmap_cons, union_list_cons.
  - by rewrite (left_id_L ∅ (∪)).
Qed.

Lemma reduce_commits results final a st :
  reduce results = Ret final → final !! a = Some st →
  Commits st = Z.of_nat (size (Spec.commit_ids a results)).
Proof.
  intros Hred Ha. destruct (reduce_lookup _ _ a Hred) as (o & Hfold & Hlk).
  rewrite Ha in Hlk. destruct o as [acc|]; [|done].
  injection Hlk as ->. simpl.
  apply fold_entry_commits in Hfold. simpl in Hfold.
  unfold Spec.commit_ids. rewrite <- (left_id_L ∅ (∪) (⋃ _)).
  by rewrite <- Hfold.
Qed.

(** C1. Whenever [aggregateStats] returns, the [Commits] field of every
    identity of the result is the number of elements of the union of the
    commit sets that the per-file results attribute to that identity; and an
    identity that two files attribute the same single commit to has
    [Commits = 1], where the per-file counts add up to 2. *)
Theorem commits_is_cardinality_of_union :
  (∀ config git arrival final a st,
     aggregateStats config git arrival = Ret final →
     final !! a = Some st →
     ∃ results,
       collect (fun file => calculateStats config (git file)) arrival
         = Ret results ∧
       Commits st = Z.of_nat (size (Spec.commit_ids a results))) ∧
  (∀ (m1 m2 final : gmap string ActorStats) a s1 s2 c st,
     m1 !! a = Some s1 → m2 !! a = Some s2 →
     commitsSet s1 = Some {[ c ]} → commitsSet s2 = Some {[ c ]} →
     reduce [m1; m2] = Ret final → final !! a = Some st →
     Commits st = 1 ∧ Spec.commit_count_sum a [m1; m2] = 2).
Proof.
  split.
  - intros config git arrival final a st Hagg Ha. unfold aggregateStats in Hagg.
    destruct (collect _ arrival) as [results|p] eqn:Hres; [|done].
    exists results. split; [done|]. by eapply reduce_commits.
  - intros m1 m2 final a s1 s2 c st H1 H2 Hs1 Hs2 Hred Ha. split.
    2: { unfold Spec.commit_count_sum, Spec.infos. cbn [omap list_omap].
         rewrite H1, H2. cbn [option_list app fmap list_fmap foldr].
         unfold Spec.commits_in. rewrite Hs1, Hs2. cbn [default from_option id].
         by rewrite size_singleton. }
    rewrite (reduce_commits _ _ _ _ Hred Ha).
    rewrite !commit_ids_cons, commit_ids_nil, H1, H2.
    cbn [from_option]. unfold Spec.commits_in. rewrite Hs1, Hs2.
    cbn [default].
    match goal with
    | |- Z.of_nat (size ?X) = _ => assert (X = {[c]}) as -> by set_solver
    end.
    by rewrite size_singleton.
Qed.

Lemma commits_is_cardinality_of_union_witness :
  ∃ results,
    collect (fun file =>
               calculateStats (Fixture.config false) (Fixture.two_files file))
            ["a.go"; "b.go"] = Ret results ∧
    1 = Z.of_nat (size (Spec.commit_ids "Dev1" results)).
Proof.
  apply (proj1 commits_is_cardinality_of_union (Fixture.config false)
           Fixture.two_files ["a.go"; "b.go"] Fixture.two_files_final "Dev1"
           {| Name := "Dev1"; Lines := 15;
              commitsSet := Some {[ Fixture.C1 ]};
              Commits := 1; Files := 2 |});
    vm_compute; reflexivity.
Defined.

(** ** The blame parser *)

Section ParserFacts.

Implicit Types (acc : gmap string ActorStats).

Lemma Split_length s sep :
  length (GoStr.Split s sep) = S (Spec.count_byte sep s).
Proof.
  induction s as [|c s IH]; [done|]. simpl.
  destruct (Ascii.eqb c sep); simpl; [by rewrite IH|].
  destruct (GoStr.Split s sep); simpl in *; lia.
Qed.

Lemma eat_hex_count n : ∀ s s',
  eat_hex n s = Some s' → (Spec.count_byte " " s' ≤ Spec.count_byte " " s)%nat.
Proof.
  induction n as [|n IH]; intros s s' H; simpl in H.
  - by injection H as <-.
  - destruct s as [|c s]; [done|]. destruct (GoStr.is_hex_lower c); [|done].
    apply IH in H. simpl. lia.
Qed.

Lemma skip_digits_count s :
  (Spec.count_byte " " (skip_digits s) ≤ Spec.count_byte " " s)%nat.
Proof.
  induction s as [|c s IH]; [done|]. simpl.
  destruct (GoStr.is_digit c); simpl; lia.
Qed.

Lemma eat_digits_count s s' :
  eat_digits s = Some s' → (Spec.count_byte " " s' ≤ Spec.count_byte " " s)%nat.
Proof.
  destruct s as [|c s]; [done|]. simpl.
  destruct (GoStr.is_digit c); [|done]. intros [= <-].
  pose proof (skip_digits_count s). lia.
Qed.

Lemma eat_space_count s s' :
  eat_space s = Some s' → Spec.count_byte " " s = S (Spec.count_byte " " s').
Proof.
  destruct s as [|c s]; [done|]. unfold eat_space.
  destruct (Ascii.eqb_spec c " ") as [->|Hc].
  - by intros [= <-].
  - destruct c as [[] [] [] [] [] [] [] []]; done.
Qed.

(** A line the pattern matches has three spaces at least. *)
Lemma MatchString_spaces line :
  commitLineRegexp_MatchString line = true →
  (3 ≤ Spec.count_byte " " line)%nat.
Proof.
  unfold commitLineRegexp_MatchString.
  set (s0 := match line with String "^" r => r | _ => line end).
  assert (Spec.count_byte " " s0 ≤ Spec.count_byte " " line)%nat as H0.
  { subst s0. destruct line as [|c r]; [done|].
    destruct c as [[] [] [] [] [] [] [] []]; simpl; lia. }
  destruct (eat_hex 40 s0) as [s1|] eqn:H1; [|done].
  apply eat_hex_count in H1.
  destruct (eat_space s1) as [s2|] eqn:H2; [|done]. simpl.
  destruct (eat_digits s2) as [s3|] eqn:H3; [|done]. simpl.
  destruct (eat_space s3) as [s4|] eqn:H4; [|done]. simpl.
  destruct (eat_digits s4) as [s5|] eqn:H5; [|done]. simpl.
  destruct (eat_space s5) as [s6|] eqn:H6; [|done]. simpl.
  intros _.
  apply eat_space_count in H2, H4, H6. apply eat_digits_count in H3, H5.
  lia.
Qed.

(** So [parts[0]] and [parts[3]] are there whenever the loop reads them. *)
Lemma header_fields line :
  commitLineRegexp_MatchString line = true →
  ∃ hash count, GoStr.Split line " " !! 0%nat = Some hash ∧
                GoStr.Split line " " !! 3%nat = Some count.
Proof.
  intros H. apply MatchString_spaces in H.
  pose proof (Split_length line " ") as Hlen.
  destruct (GoStr.Split line " ") as [|p0 [|p1 [|p2 [|p3 ps]]]];
    simpl in Hlen; try lia.
  by exists p0, p3.
Qed.


Lemma scan_lines_cons config line after acc :
  scan_lines config (line :: after) acc =
    match Spec.parse_header line with
    | Some (hash, Some n) =>
        record_line config hash n after acc ≫= scan_lines config after
    | Some (_, None) =>
        match after with
        | [] => Ret acc
        | _ :: after' => scan_lines config after' acc
        end
    | None => scan_lines config after acc
    end.
Proof.
  cbn [scan_lines]. unfold Spec.parse_header.
  destruct (commitLineRegexp_MatchString line) eqn:Hm; [|done].
  destruct (header_fields _ Hm) as (h & c & Hh & Hc).
  unfold index. rewrite Hh, Hc. simpl. by destruct (GoInt.Atoi c).
Qed.

(** The loop is the accumulation over the records it reaches. *)
Lemma scan_lines_reached config : ∀ n lines acc,
  (length lines ≤ n)%nat →
  scan_lines config lines acc =
    Spec.accumulate config (Spec.reached_records lines) acc.
Proof.
  induction n as [|n IH]; intros lines acc Hlen.
  - destruct lines; [done|simpl in Hlen; lia].
  - destruct lines as [|line after]; [done|]. simpl in Hlen.
    rewrite scan_lines_cons. cbn [Spec.reached_records].
    destruct (Spec.parse_header line) as [[hash [k|]]|].
    + unfold Spec.accumulate. cbn [for_range].
      destruct (record_line config hash k after acc) as [acc'|]; [|done].
      simpl. apply IH. lia.
    + destruct after as [|next after']; [done|]. apply IH. simpl in Hlen. lia.
    + apply IH. lia.
Qed.


Lemma record_line_complete config hash n after acc :
  Spec.record_complete config (hash, n, after) = true →
  Spec.partial_stats acc →
  ∃ acc', record_line config hash n after acc = Ret acc' ∧
          Spec.partial_stats acc' ∧
          is_Some (acc' !! Spec.record_identity config (hash, n, after)) ∧
          ∀ a, a ≠ Spec.record_identity config (hash, n, after) →
               acc' !! a = acc !! a.
Proof.
  unfold Spec.record_complete, Spec.identity_lines, Spec.record_identity,
    record_line, index. cbn [snd]. intros Hlen Hacc.
  apply Nat.leb_le in Hlen.
  assert (∃ l1, after !! 0%nat = Some l1) as [l1 H1].
  { apply lookup_lt_is_Some. destruct (UseCommitter config); lia. }
  rewrite H1. cbn [mbind outcome_bind default from_option id].
  set (actor := if UseCommitter config
                then GoStr.TrimPrefix (default "" (after !! 4%nat)) "committer "
                else GoStr.TrimPrefix l1 "author ").
  assert ((if UseCommitter config
           then l5 ← match after !! 4%nat with
                     | Some x => Ret x
                     | None => Panic IndexOutOfRange
                     end; Ret (GoStr.TrimPrefix l5 "committer ")
           else Ret (GoStr.TrimPrefix l1 "author ")) = Ret actor) as ->.
  { subst actor. destruct (UseCommitter config); [|done].
    assert (∃ l5, after !! 4%nat = Some l5) as [l5 ->]
      by (apply lookup_lt_is_Some; lia).
    done. }
  cbn [mbind outcome_bind].
  destruct (acc !! actor) as [old|] eqn:Hold.
  - rewrite Hold. cbn [default from_option id].
    destruct (Hacc _ _ Hold) as (Hname & (cs & Hcs & Hne) & Hcom & Hfiles).
    rewrite Hcs. eexists. split; [done|]. split; [|split].
    + intros a st Hst. destruct (decide (a = actor)) as [->|Hna].
      * rewrite lookup_insert_eq in Hst. injection Hst as <-.
        repeat split; simpl; [|done|done].
        exists ({[hash]} ∪ cs). split; [done|set_solver].
      * rewrite lookup_insert_ne in Hst by done. by apply Hacc.
    + rewrite lookup_insert_eq. eauto.
    + intros a Hna. by rewrite lookup_insert_ne.
  - rewrite lookup_insert_eq. cbn [default from_option id commitsSet].
    eexists. split; [done|]. split; [|split].
    + intros a st Hst. destruct (decide (a = actor)) as [->|Hna].
      * rewrite lookup_insert_eq in Hst. injection Hst as <-.
        repeat split; simpl.
        exists ({[hash]} ∪ ∅). split; [done|set_solver].
      * rewrite !lookup_insert_ne in Hst by done. by apply Hacc.
    + rewrite lookup_insert_eq. eauto.
    + intros a Hna. by rewrite !lookup_insert_ne.
Qed.

Lemma record_line_incomplete config hash n after acc :
  Spec.record_complete config (hash, n, after) = false →
  record_line config hash n after acc = Panic IndexOutOfRange.
Proof.
  unfold Spec.record_complete, Spec.identity_lines, record_line, index.
  cbn [snd]. intros Hlen. apply Nat.leb_gt in Hlen.
  destruct (after !! 0%nat) as [l1|] eqn:H1; [|done].
  cbn [mbind outcome_bind].
  destruct (UseCommitter config).
  - assert (after !! 4%nat = None) as -> by (apply lookup_ge_None; lia).
    done.
  - apply lookup_lt_Some in H1. lia.
Qed.

Lemma accumulate_complete config (records : list Spec.record) : ∀ acc,
  forallb (Spec.record_complete config) records = true →
  Spec.partial_stats acc →
  ∃ acc', Spec.accumulate config records acc = Ret acc' ∧
          Spec.partial_stats acc'.
Proof.
  induction records as [|[[hash n] after] records IH]; intros acc Hall Hacc.
  - by exists acc.
  - cbn [forallb] in Hall. apply andb_true_iff in Hall as [Hr Hall].
    destruct (record_line_complete _ _ _ _ _ Hr Hacc) as (acc1 & Hrun & H1 & _).
    unfold Spec.accumulate. cbn [for_range]. rewrite Hrun. simpl.
    by apply IH.
Qed.

Lemma accumulate_incomplete config (records : list Spec.record) : ∀ acc,
  forallb (Spec.record_complete config) records = false →
  Spec.partial_stats acc →
  Spec.accumulate config records acc = Panic IndexOutOfRange.
Proof.
  induction records as [|[[hash n] after] records IH]; intros acc Hall Hacc.
  - done.
  - cbn [forallb] in Hall. unfold Spec.accumulate. cbn [for_range].
    destruct (Spec.record_complete config (hash, n, after)) eqn:Hr.
    + destruct (record_line_complete _ _ _ _ _ Hr Hacc)
        as (acc1 & Hrun & H1 & _).
      rewrite Hrun. simpl. by apply IH.
    + by rewrite record_line_incomplete.
Qed.

Lemma partial_stats_empty : Spec.partial_stats ∅.
Proof. intros a st H. by rewrite lookup_empty in H. Qed.

Lemma calculateStats_blamed config out log_out :
  (String.length out =? 0)%nat = false →
  calculateStats config {| blame := Some out; log := log_out |} =
    Spec.accumulate config (Spec.reached_records (GoStr.Split out "010")) ∅.
Proof.
  intros Hlen. unfold calculateStats. cbn [blame]. rewrite Hlen.
  by eapply scan_lines_reached.
Qed.

End ParserFacts.

Lemma accumulate_partial_stats config (records : list Spec.record) :
  ∀ acc acc' : gmap string ActorStats,
  Spec.accumulate config records acc = Ret acc' →
  Spec.partial_stats acc → Spec.partial_stats acc'.
Proof.
  induction records as [|[[hash n] after] records IH];
    intros acc acc' Hrun Hacc.
  - by injection Hrun as <-.
  - unfold Spec.accumulate in Hrun. cbn [for_range] in Hrun.
    destruct (Spec.record_complete config (hash, n, after)) eqn:Hr.
    + destruct (record_line_complete _ _ _ _ _ Hr Hacc)
        as (acc1 & Hrec & H1 & _).
      rewrite Hrec in Hrun. simpl in Hrun. by eapply IH.
    + by rewrite record_line_incomplete in Hrun.
Qed.

(** ** Sums of 64-bit integers *)

Lemma wrap64_range z : GoInt.min_int ≤ GoInt.wrap64 z ≤ GoInt.max_int.
Proof.
  unfold GoInt.wrap64, GoInt.min_int, GoInt.max_int.
  pose proof (Z.mod_pos_bound (z + 2 ^ 63) (2 ^ 64) ltac:(lia)). lia.
Qed.

Lemma wrap64_id z :
  GoInt.min_int ≤ z ≤ GoInt.max_int → GoInt.wrap64 z = z.
Proof.
  unfold GoInt.wrap64, GoInt.min_int, GoInt.max_int. intros H.
  rewrite Z.mod_small by lia. lia.
Qed.

Lemma wrap64_add_l x y :
  GoInt.wrap64 (GoInt.wrap64 x + y) = GoInt.wrap64 (x + y).
Proof.
  unfold GoInt.wrap64. f_equal.
  replace ((x + 2 ^ 63) mod 2 ^ 64 - 2 ^ 63 + y + 2 ^ 63)
    with ((x + 2 ^ 63) mod 2 ^ 64 + y) by lia.
  rewrite Zplus_mod_idemp_l. f_equal. lia.
Qed.


(** C10. No slice access of the extractor is guarded. It returns when the
    answers are complete (each record reached is followed by the line, or
    the five lines, read for it; the answer of [git log] holds a newline),
    and it panics with an index out of range on every other answer. *)
Theorem extraction_total_on_complete_answers config git :
  (Spec.answers_complete config git = true → Spec.never_panics config git) ∧
  (Spec.answers_complete config git = false →
   calculateStats config git = Panic IndexOutOfRange).
Proof.
  unfold Spec.answers_complete, Spec.never_panics.
  destruct git as [[out|] log_out]; cbn [blame log].
  2: { split; [|done]. intros _. by exists ∅. }
  destruct (String.length out =? 0)%nat eqn:Hlen.
  - unfold calculateStats. cbn [blame log]. rewrite Hlen.
    destruct log_out as [log_out|]; [|split; [by eexists|done]].
    unfold infoEmptyFile, index.
    pose proof (Split_length log_out "010") as Hsplit.
    destruct (GoStr.Split log_out "010") as [|hash [|actor rest]];
      simpl in Hsplit; [lia| |].
    + assert (Spec.count_byte "010" log_out = 0%nat) as -> by lia.
      split; done.
    + destruct (Spec.count_byte "010" log_out); [lia|].
      split; [by eexists|done].
  - rewrite calculateStats_blamed by done. split; intros Hall.
    + destruct (accumulate_complete _ _ ∅ Hall partial_stats_empty)
        as (stats & -> & _). by exists stats.
    + by apply accumulate_incomplete, partial_stats_empty.
Qed.

Lemma extraction_total_on_complete_answers_witness :
  Spec.never_panics (Fixture.config true) (Fixture.two_files "b.go").
Proof.
  apply (proj1 (extraction_total_on_complete_answers
                  (Fixture.config true) (Fixture.two_files "b.go")));
    vm_compute; reflexivity.
Defined.

(** A header on the last line of the blame output, and an answer of
    [git log] without a newline, make the extractor panic. *)
Lemma extraction_panics_on_truncated_answers :
  ¬ Spec.never_panics (Fixture.config false)
      {| blame := Some Fixture.lone_header; log := None |} ∧
  ¬ Spec.never_panics (Fixture.config false)
      {| blame := Some ""; log := Some Fixture.C1 |}.
Proof.
  split; intros [stats H]; vm_compute in H; discriminate.
Qed.

(** ** The fallback for a file without blamed lines *)

Lemma reduce_singleton a (st : ActorStats) :
  reduce [ {[ a := st ]} ] = Ret {[ a := finalize st ]}.
Proof.
  unfold reduce. cbn [for_range]. unfold merge_file.
  rewrite map_to_list_singleton. cbn [for_range merge_actor].
  rewrite lookup_empty. simpl. by rewrite insert_empty, map_fmap_singleton.
Qed.

(** C6. When [git blame] answers with no output and [git log] answers with
    a commit and a name, the extractor returns the one statistic of that
    name, with no line, that commit and one file; alone in the aggregate it
    is finalized with [Commits = 1]. *)
Theorem empty_file_is_attributed_to_last_commit
    config log_out hash actor rest :
  GoStr.Split log_out "010" = hash :: actor :: rest →
  calculateStats config {| blame := Some ""; log := Some log_out |} =
    Ret {[ actor := {| Name := actor; Lines := 0;
                       commitsSet := Some {[ hash ]};
                       Commits := 0; Files := 1 |} ]} ∧
  aggregateStats config
      (fun _ => {| blame := Some ""; log := Some log_out |}) ["file"] =
    Ret {[ actor := {| Name := actor; Lines := 0;
                       commitsSet := Some {[ hash ]};
                       Commits := 1; Files := 1 |} ]}.
Proof.
  intros Hsplit.
  assert (calculateStats config {| blame := Some ""; log := Some log_out |} =
            Ret {[ actor := {| Name := actor; Lines := 0;
                               commitsSet := Some {[ hash ]};
                               Commits := 0; Files := 1 |} ]}) as Hcalc.
  { unfold calculateStats, infoEmptyFile. cbn [blame log String.length Nat.eqb].
    by rewrite Hsplit. }
  split; [done|].
  unfold aggregateStats. cbn [collect]. rewrite Hcalc. simpl.
  rewrite reduce_singleton. unfold finalize.
  cbn [Name Lines commitsSet Files]. unfold default. cbn [from_option id].
  by rewrite size_singleton.
Qed.

Lemma empty_file_is_attributed_to_last_commit_witness :
  calculateStats (Fixture.config false)
      {| blame := Some ""; log := Some Fixture.carol_log |} =
    Ret {[ "Carol" := {| Name := "Carol"; Lines := 0;
                         commitsSet := Some {[ Fixture.C1 ]};
                         Commits := 0; Files := 1 |} ]} ∧
  aggregateStats (Fixture.config false)
      (fun _ => {| blame := Some ""; log := Some Fixture.carol_log |})
      ["file"] =
    Ret {[ "Carol" := {| Name := "Carol"; Lines := 0;
                         commitsSet := Some {[ Fixture.C1 ]};
                         Commits := 1; Files := 1 |} ]}.
Proof.
  apply (empty_file_is_attributed_to_last_commit (Fixture.config false)
           Fixture.carol_log Fixture.C1 "Carol" []).
  vm_compute. reflexivity.
Defined.

(** ** Failed queries *)

(** A failed [git blame] leaves the file out. *)
Lemma failed_blame_is_empty config log_out :
  calculateStats config {| blame := None; log := log_out |} = Ret ∅.
Proof. done. Qed.

Lemma reduce_skips_empty (results : list (gmap string ActorStats)) :
  reduce (∅ :: results) = reduce results.
Proof.
  assert (∀ final : gmap string ActorStats, merge_file ∅ final = Ret final)
    as Hempty.
  { intros final. unfold merge_file. by rewrite map_to_list_empty. }
  unfold reduce. cbn [for_range]. by rewrite Hempty.
Qed.

(** C7, at a file whose blame is empty and whose [git log] fails: the
    extractor returns a map that holds the zero statistic under the empty
    name, and the aggregate of that file alone has an entry for the empty
    name. *)
Theorem failed_fallback_adds_nameless_entry config :
  calculateStats config {| blame := Some ""; log := None |} =
    Ret {[ "" := ActorStats_zero ]} ∧
  aggregateStats config (fun _ => {| blame := Some ""; log := None |})
      ["file"] =
    Ret {[ "" := ActorStats_zero ]}.
Proof.
  split; [done|].
  unfold aggregateStats. cbn [collect].
  assert (calculateStats config {| blame := Some ""; log := None |} =
            Ret {[ "" := ActorStats_zero ]}) as -> by done.
  simpl. by rewrite reduce_singleton.
Qed.

(** C2, at two files: [empty.txt], whose fallback query fails, and
    [anon.go], blamed on a commit with an empty author name. Merged in this
    order the reduction writes into the nil commit set of the zero statistic
    and panics; merged in the other order it returns. *)
Theorem merge_order_decides_outcome :
  aggregateStats (Fixture.config false) Fixture.nameless
      ["empty.txt"; "anon.go"] = Panic NilMapAssignment ∧
  aggregateStats (Fixture.config false) Fixture.nameless
      ["anon.go"; "empty.txt"] =
    Ret {[ "" := {| Name := ""; Lines := 3;
                    commitsSet := Some {[ Fixture.C1 ]};
                    Commits := 1; Files := 1 |} ]}.
Proof. split; vm_compute; reflexivity. Qed.

(** ** Strings *)

Lemma length_append (s1 s2 : string) :
  String.length (s1 +:+ s2) = (String.length s1 + String.length s2)%nat.
Proof. induction s1 as [|c s1 IH]; simpl; [done|by rewrite IH]. Qed.

Lemma drop_bytes_append (p s : string) :
  GoStr.drop_bytes (String.length p) (p +:+ s) = s.
Proof. induction p as [|c p IH]; simpl; [by destruct s|done]. Qed.

Lemma drop_bytes_split n : ∀ s, ∃ p, s = p +:+ GoStr.drop_bytes n s.
Proof.
  induction n as [|n IH]; intros s.
  - by exists "".
  - destruct s as [|c s]; [by exists ""|].
    destruct (IH s) as [p Hp]. exists (String c p).
    cbn [GoStr.drop_bytes]. rewrite Hp at 1. reflexivity.
Qed.

Lemma HasSuffix_spec s suffix :
  GoStr.HasSuffix s suffix = true ↔ Spec.is_suffix suffix s.
Proof.
  unfold GoStr.HasSuffix, Spec.is_suffix. rewrite andb_true_iff.
  rewrite Nat.leb_le, String.eqb_eq. split.
  - intros [_ Heq].
    destruct (drop_bytes_split (String.length s - String.length suffix) s)
      as [p Hp].
    exists p. by rewrite <- Heq.
  - intros [p ->]. rewrite length_append. split; [lia|].
    replace (String.length p + String.length suffix - String.length suffix)%nat
      with (String.length p) by lia.
    apply drop_bytes_append.
Qed.

(** ** The language filter *)

Section LanguageFacts.

Variable ToLower : string -> string.

Lemma matchesLanguage_spec path config :
  matchesLanguage ToLower path config = true ↔
  Spec.language_pass_by_suffix ToLower path config.
Proof.
  unfold matchesLanguage, Spec.language_pass_by_suffix.
  destruct (Languages config) as [|l0 ls] eqn:Hl.
  - split; [by left|done].
  - cbn [length Nat.eqb]. rewrite existsb_exists. split.
    + intros (lang & Hin & Hlang). right.
      destruct (ExtensionsMap config !! ToLower lang) as [exts|] eqn:He;
        [|done].
      apply existsb_exists in Hlang as (ext & Hext & Hsuf).
      exists lang, exts, ext.
      split; [by apply list_elem_of_In|]. split; [done|].
      split; [by apply list_elem_of_In|by apply HasSuffix_spec].
    + intros [?|(lang & exts & ext & Hin & He & Hext & Hsuf)]; [done|].
      exists lang. split; [by apply list_elem_of_In|]. rewrite He.
      apply existsb_exists. exists ext.
      split; [by apply list_elem_of_In|by apply HasSuffix_spec].
Qed.

Lemma add_extensions_lookup k (exts : list string) :
  ∀ (m : gmap string (list string)) k',
  default [] (fold_left (configs.add_extension k) exts m !! k') =
    default [] (m !! k') ++ (if decide (k = k') then exts else []).
Proof.
  induction exts as [|ext exts IH]; intros m k'; simpl.
  - case_decide; by rewrite app_nil_r.
  - rewrite IH. unfold configs.add_extension.
    destruct (decide (k = k')) as [->|Hne].
    + rewrite lookup_insert_eq. simpl. by rewrite <- app_assoc.
    + by rewrite lookup_insert_ne.
Qed.

(** The key of an extension in the table is the lowered language name. *)
Lemma LoadExtensionsMap_lookup (table : list configs.languageExtension) k ext :
  ext ∈ default [] (configs.LoadExtensionsMap ToLower table !! k) ↔
  ∃ entry, entry ∈ table ∧ ToLower (configs.Name entry) = k ∧
           ext ∈ configs.Extensions entry.
Proof.
  unfold configs.LoadExtensionsMap.
  assert (∀ m : gmap string (list string),
    ext ∈ default []
      (fold_left
         (fun m lang =>
            fold_left (configs.add_extension (ToLower (configs.Name lang)))
              (configs.Extensions lang) m) table m !! k) ↔
    ext ∈ default [] (m !! k) ∨
    ∃ entry, entry ∈ table ∧ ToLower (configs.Name entry) = k ∧
             ext ∈ configs.Extensions entry) as Hgen.
  { induction table as [|lang table IH]; intros m; simpl.
    - split; [by left|]. intros [?|(entry & Hin & _)]; [done|].
      by apply elem_of_nil in Hin.
    - rewrite IH, add_extensions_lookup, elem_of_app. split.
      + intros [[?|Hhere]|(entry & Hin & Hrest)].
        * by left.
        * right. case_decide; [|by apply elem_of_nil in Hhere].
          exists lang. split; [apply elem_of_cons; by left|done].
        * right. exists entry. split; [apply elem_of_cons; by right|done].
      + intros [?|(entry & Hin & Hk & Hext)]; [by left; left|].
        apply elem_of_cons in Hin as [->|Hin].
        * left. right. by rewrite decide_True.
        * right. by exists entry. }
  rewrite Hgen, lookup_empty. simpl. split; [|by right].
  intros [Hnil|?]; [by apply elem_of_nil in Hnil|done].
Qed.

(** C9. The language filter passes a path exactly when no language is
    requested or an extension registered for a requested language, looked
    up under its lowered name, ends [filepath.Ext] of the path (the suffix
    of the last path element from its last dot, dot included); against the
    table loaded at start, requested and registered names are compared once
    lowered. *)
Theorem language_filter_tests_suffix path config table :
  (matchesLanguage ToLower path config = true ↔
   Spec.language_pass_by_suffix ToLower path config) ∧
  (matchesLanguage ToLower path
     (set_ExtensionsMap config (configs.LoadExtensionsMap ToLower table))
     = true ↔
   Spec.language_pass_by_table ToLower table path config).
Proof.
  split; [apply matchesLanguage_spec|].
  rewrite matchesLanguage_spec.
  unfold Spec.language_pass_by_suffix, Spec.language_pass_by_table.
  cbn [set_ExtensionsMap Languages ExtensionsMap]. split.
  - intros [?|(lang & exts & ext & Hin & He & Hext & Hsuf)]; [by left|right].
    assert (ext ∈ default []
              (configs.LoadExtensionsMap ToLower table !! ToLower lang)) as H
      by (by rewrite He).
    apply LoadExtensionsMap_lookup in H as (entry & Hentry & Hname & Hx).
    by exists lang, entry, ext.
  - intros [?|(lang & entry & ext & Hin & Hentry & Hname & Hext & Hsuf)];
      [by left|right].
    assert (ext ∈ default []
              (configs.LoadExtensionsMap ToLower table !! ToLower lang)) as H
      by (apply LoadExtensionsMap_lookup; eauto).
    destruct (configs.LoadExtensionsMap ToLower table !! ToLower lang)
      as [exts|] eqn:He; [|by apply elem_of_nil in H].
    simpl in H. by exists lang, exts, ext.
Qed.

End LanguageFacts.

(** A C++ source is not taken for C, although [cc] and [.c] end alike. *)
Lemma shared_last_byte_does_not_pass :
  ¬ (matchesLanguage GoStr.ascii_ToLower "src/main.cc" Fixture.only_C = true ↔
     Spec.language_pass_by_common_suffix GoStr.ascii_ToLower "src/main.cc"
       Fixture.only_C).
Proof.
  intros [_ H].
  assert (matchesLanguage GoStr.ascii_ToLower "src/main.cc" Fixture.only_C
          = false) as Hcode by (vm_compute; reflexivity).
  rewrite H in Hcode; [done|]. right.
  exists "C", [".c"; ".h"], ".c". split; [|split; [|split]].
  - apply elem_of_cons. by left.
  - vm_compute. reflexivity.
  - apply elem_of_cons. by left.
  - exists "c". split; [done|]. split; [by exists "c"|by exists "."].
Qed.

(** ** The filter stage *)

Section FilterFacts.

Variable filepath_Match : string -> string -> bool.
Variable ToLower : string -> string.
Variable config : Config.

Local Abbreviation pass := (passes filepath_Match ToLower config).
Local Abbreviation step := (parallelFilter_step filepath_Match ToLower config).

Lemma occurrences_filter (f : string -> bool) (l : list string) file :
  Spec.occurrences file (List.filter f l) =
    if f file then Spec.occurrences file l else 0%nat.
Proof.
  unfold Spec.occurrences. induction l as [|x l IH]; simpl.
  - by destruct (f file).
  - destruct (f x) eqn:Hx; simpl; destruct (String.string_dec x file) as [->|];
      rewrite IH; try done.
    + by rewrite Hx.
    + by rewrite Hx.
Qed.

Lemma filter_inv_init files :
  Spec.filter_inv pass files (parallelFilter_init files).
Proof. repeat split; simpl; try done. Qed.

Lemma filter_inv_step files s s' :
  Spec.filter_inv pass files s → step s s' → Spec.filter_inv pass files s'.
Proof.
  intros (Hwg & Hcloser & Hclosed & Hsent) Hstep.
  inversion Hstep; subst; unfold Spec.filter_inv; simpl in *.
  - split; [rewrite length_app; simpl; lia|]. split; [done|]. split; [done|].
    by rewrite <- app_assoc.
  - done.
  - rewrite length_app in Hwg. simpl in Hwg.
    split; [rewrite length_app; lia|]. split; [done|]. split; [done|].
    rewrite <- Hsent. rewrite <- !app_assoc, !List.filter_app. simpl.
    destruct (pass file).
    + rewrite <- !app_assoc. apply Permutation_app_head. simpl.
      apply Permutation_middle.
    + done.
  - split; [lia|]. split; [done|]. split; [|done].
    intros Hc. destruct (Hclosed Hc) as [_ ?]. lia.
  - done.
Qed.

Lemma filter_inv_reachable files s :
  rtc step (parallelFilter_init files) s → Spec.filter_inv pass files s.
Proof.
  revert s. apply rtc_ind_r.
  - apply filter_inv_init.
  - intros s s' _ Hstep Hinv. by eapply filter_inv_step.
Qed.

Lemma filter_step_fuel s s' : step s s' → (filter_fuel s' < filter_fuel s)%nat.
Proof.
  intros Hstep. inversion Hstep; subst; unfold filter_fuel; simpl;
    rewrite ?length_app; simpl; lia.
Qed.

Lemma filter_progress files s :
  Spec.filter_inv pass files s → closed s = false → ∃ s', step s s'.
Proof.
  intros (Hwg & Hcloser & Hclosed & _) Hopen.
  destruct s as [unsp run fin n cl snt c]. simpl in *. subst c.
  destruct cl.
  - rewrite (Hcloser eq_refl). destruct run as [|file run].
    + destruct fin as [|fin].
      * simpl in Hwg. subst n. eexists. apply step_close.
      * simpl in Hwg. subst n. eexists. apply step_done.
    + eexists. apply (step_body _ _ _ [] [] file run).
  - destruct unsp as [|file files'].
    + eexists. apply step_spawn_closer.
    + eexists. apply step_spawn.
Qed.

Lemma filter_closed_final files s :
  Spec.filter_inv pass files s → closed s = true →
  unspawned s = [] ∧ running s = [] ∧ finishing s = 0%nat ∧
  sent s ≡ₚ List.filter pass files ∧ ∀ s', ¬ step s s'.
Proof.
  intros (Hwg & Hcloser & Hclosed & Hsent) Hc.
  destruct (Hclosed Hc) as [Hcl Hzero]. specialize (Hcloser Hcl).
  rewrite Hzero in Hwg.
  assert (running s = []) as Hrun
    by (destruct (running s); [done|simpl in Hwg; lia]).
  assert (finishing s = 0%nat) as Hfin by lia.
  rewrite Hrun, Hcloser in Hsent. simpl in Hsent. rewrite app_nil_r in Hsent.
  repeat split; try done.
  intros s' Hstep. inversion Hstep; subst; simpl in *; try done.
  by destruct run1.
Qed.

(** C4. A file passes when the four predicates hold, each of which holds
    for an empty list. In every state the filter stage reaches, a step is
    possible until the channel is closed, and every step uses up fuel, so
    the stage runs to closure. Once the channel is closed no worker and no
    file is left, nothing more happens, and the values sent are those of the
    files that pass, each as often as it is listed: once for a file of a
    list without repetition that passes, never for one that does not. *)
Theorem parallelFilter_sends_each_match_once files s :
  rtc step (parallelFilter_init files) s →
  (∀ file,
     (pass file = true ↔
        matchesExtensions file (Extensions config) = true ∧
        matchesExcludePatterns filepath_Match file (Exclude config) = true ∧
        matchesRestrictToPatterns filepath_Match file (RestrictTo config)
          = true ∧
        matchesLanguage ToLower file config = true) ∧
     matchesExtensions file [] = true ∧
     matchesExcludePatterns filepath_Match file [] = true ∧
     matchesRestrictToPatterns filepath_Match file [] = true ∧
     (Languages config = [] → matchesLanguage ToLower file config = true)) ∧
  (closed s = false → ∃ s', step s s') ∧
  (∀ s', step s s' → (filter_fuel s' < filter_fuel s)%nat) ∧
  (closed s = true →
     unspawned s = [] ∧ running s = [] ∧ finishing s = 0%nat ∧
     (∀ s', ¬ step s s') ∧
     sent s ≡ₚ List.filter pass files ∧
     (∀ file, Spec.occurrences file (sent s) =
                if pass file then Spec.occurrences file files else 0%nat) ∧
     (NoDup files → ∀ file, file ∈ files →
        Spec.occurrences file (sent s) = if pass file then 1%nat else 0%nat)).
Proof.
  intros Hrun. pose proof (filter_inv_reachable _ _ Hrun) as Hinv.
  split; [|split; [|split]].
  - intros file. split; [|split; [|split; [|split]]]; try done.
    + unfold passes. rewrite !andb_true_iff. tauto.
    + intros Hl. unfold matchesLanguage. by rewrite Hl.
  - by eapply filter_progress.
  - apply filter_step_fuel.
  - intros Hc.
    destruct (filter_closed_final _ _ Hinv Hc)
      as (H1 & H2 & H3 & Hsent & Hfinal).
    assert (∀ file, Spec.occurrences file (sent s) =
              if pass file then Spec.occurrences file files else 0%nat) as Hocc.
    { intros file. rewrite <- occurrences_filter. unfold Spec.occurrences.
      by apply Permutation_count_occ. }
    repeat split; try done.
    intros Hnd file Hin. rewrite Hocc. destruct (pass file); [|done].
    apply NoDup_ListNoDup in Hnd.
    apply (proj1 (NoDup_count_occ' String.string_dec files) Hnd).
    by apply list_elem_of_In.
Qed.

End FilterFacts.

Lemma parallelFilter_sends_each_match_once_witness :
  sent Fixture.filtered ≡ₚ
    List.filter
      (passes Fixture.literal_Match GoStr.ascii_ToLower Fixture.only_go)
      ["main.go"; "README.md"].
Proof.
  assert (rtc (parallelFilter_step Fixture.literal_Match GoStr.ascii_ToLower
                 Fixture.only_go)
              (parallelFilter_init ["main.go"; "README.md"]) Fixture.filtered)
    as Hrun.
  { eapply rtc_l; [apply step_spawn|].
    eapply rtc_l; [apply step_spawn|].
    eapply rtc_l; [apply step_spawn_closer|].
    eapply rtc_l;
      [apply (step_body _ _ _ [] ["main.go"] "README.md" [])|].
    eapply rtc_l; [apply (step_body _ _ _ [] [] "main.go" [])|].
    eapply rtc_l; [apply step_done|].
    eapply rtc_l; [apply step_done|].
    eapply rtc_l; [apply step_close|].
    apply rtc_refl. }
  apply (parallelFilter_sends_each_match_once Fixture.literal_Match
           GoStr.ascii_ToLower Fixture.only_go _ _ Hrun).
  reflexivity.
Defined.

(** ** Ranking *)

Section RankFacts.

Lemma compare_refl (s : string) : String.compare s s = Eq.
Proof.
  induction s as [|c s IH]; simpl; [done|].
  unfold Ascii.compare. by rewrite N.compare_refl.
Qed.

Lemma ltb_le (s1 s2 : string) :
  String.ltb s1 s2 = true ↔ String.leb s1 s2 = true ∧ s1 ≠ s2.
Proof.
  unfold String.ltb, String.leb.
  destruct (String.compare s1 s2) eqn:Hc; split; try done.
  - intros [_ Hne]. by apply String.compare_eq_iff in Hc.
  - intros _. split; [done|]. intros ->.
    pose proof (compare_refl s2). congruence.
  - by intros [? _].
Qed.

Lemma ltb_irrefl (s : string) : String.ltb s s = false.
Proof.
  destruct (String.ltb s s) eqn:H; [|done]. apply ltb_le in H as [_ ?]. done.
Qed.

Lemma ltb_trans (s1 s2 s3 : string) :
  String.ltb s1 s2 = true → String.ltb s2 s3 = true → String.ltb s1 s3 = true.
Proof.
  rewrite !ltb_le. intros [H12 Hne12] [H23 Hne23].
  assert (String.le s1 s2) as L12 by (by apply Is_true_true).
  assert (String.le s2 s3) as L23 by (by apply Is_true_true).
  split.
  - apply Is_true_true. change (String.le s1 s3). by etrans.
  - intros ->. apply Hne12. by apply (anti_symm String.le).
Qed.

Lemma ltb_total (s1 s2 : string) :
  String.ltb s1 s2 = true ∨ s1 = s2 ∨ String.ltb s2 s1 = true.
Proof.
  destruct (decide (s1 = s2)) as [->|Hne]; [by right; left|].
  rewrite !ltb_le. destruct (String.leb_total s1 s2); [left|right; right]; done.
Qed.

Lemma less_spec orderBy a b :
  less orderBy a b = true ↔ Spec.ranks_before orderBy a b.
Proof.
  unfold less, Spec.ranks_before, Spec.cascade.
  destruct (String.eqb orderBy "commits"), (String.eqb orderBy "files");
    rewrite ?Z.gtb_ltb;
    destruct (Z.eqb_spec (Commits a) (Commits b)),
             (Z.eqb_spec (Lines a) (Lines b)),
             (Z.eqb_spec (Files a) (Files b)); simpl;
    try destruct (Z.ltb_spec (Commits b) (Commits a));
    try destruct (Z.ltb_spec (Lines b) (Lines a));
    try destruct (Z.ltb_spec (Files b) (Files a));
    try lia; intuition (try lia; try congruence).
Qed.

Lemma ranks_before_irrefl orderBy a : ¬ Spec.ranks_before orderBy a a.
Proof.
  unfold Spec.ranks_before. destruct (Spec.cascade orderBy a) as [[a1 a2] a3].
  pose proof (ltb_irrefl (Name a)) as H. rewrite H.
  intros [?|[_ [?|[_ [?|[_ ?]]]]]]; (lia || done).
Qed.

Lemma ranks_before_trans orderBy a b c :
  Spec.ranks_before orderBy a b → Spec.ranks_before orderBy b c →
  Spec.ranks_before orderBy a c.
Proof.
  unfold Spec.ranks_before.
  destruct (Spec.cascade orderBy a) as [[a1 a2] a3],
           (Spec.cascade orderBy b) as [[b1 b2] b3],
           (Spec.cascade orderBy c) as [[c1 c2] c3].
  pose proof (ltb_trans (Name a) (Name b) (Name c)) as Ht.
  intros [?|[? [?|[? [?|[? Hab]]]]]] [?|[? [?|[? [?|[? Hbc]]]]]];
    try (left; lia); try (right; split; [lia|]; left; lia);
    try (right; split; [lia|]; right; split; [lia|]; left; lia).
  right; split; [lia|]; right; split; [lia|]; right; split; [lia|]. auto.
Qed.

Lemma ranks_before_total orderBy a b :
  Spec.ranks_before orderBy a b ∨ Spec.shown a = Spec.shown b ∨
  Spec.ranks_before orderBy b a.
Proof.
  unfold Spec.ranks_before, Spec.cascade, Spec.shown.
  destruct (ltb_total (Name a) (Name b)) as [Hn|[Hn|Hn]];
    destruct (String.eqb orderBy "commits"), (String.eqb orderBy "files");
    destruct (Z.lt_total (Commits a) (Commits b)) as [?|[Hc|?]],
             (Z.lt_total (Lines a) (Lines b)) as [?|[Hl|?]],
             (Z.lt_total (Files a) (Files b)) as [?|[Hf|?]];
    try (left; lia); try (right; right; lia);
    try (left; right; split; [lia|]; left; lia);
    try (right; right; right; split; [lia|]; left; lia);
    try (left; right; split; [lia|]; right; split; [lia|]; left; lia);
    try (right; right; right; split; [lia|]; right; split; [lia|]; left; lia);
    try (left; right; split; [lia|]; right; split; [lia|]; right; split; [lia|];
         done);
    try (right; right; right; split; [lia|]; right; split; [lia|]; right;
         split; [lia|]; done);
    right; left; congruence.
Qed.

Lemma less_irrefl orderBy a : less orderBy a a = false.
Proof.
  destruct (less orderBy a a) eqn:H; [|done].
  apply less_spec in H. by apply ranks_before_irrefl in H.
Qed.

Lemma less_trans orderBy a b c :
  less orderBy a b = true → less orderBy b c = true → less orderBy a c = true.
Proof. rewrite !less_spec. apply ranks_before_trans. Qed.

Lemma less_total orderBy a b :
  less orderBy a b = true ∨ Spec.shown a = Spec.shown b ∨
  less orderBy b a = true.
Proof. rewrite !less_spec. apply ranks_before_total. Qed.

Lemma less_asym orderBy a b :
  less orderBy a b = true → less orderBy b a = false.
Proof.
  intros Hab. destruct (less orderBy b a) eqn:Hba; [|done].
  pose proof (less_trans _ _ _ _ Hab Hba) as H.
  by rewrite less_irrefl in H.
Qed.

(** [less] looks at the shown fields only. *)
Lemma less_shown_l orderBy a a' b :
  Spec.shown a = Spec.shown a' → less orderBy a b = less orderBy a' b.
Proof. unfold Spec.shown, less. by intros [= -> -> -> ->]. Qed.

Lemma less_shown_r orderBy a b b' :
  Spec.shown b = Spec.shown b' → less orderBy a b = less orderBy a b'.
Proof. unfold Spec.shown, less. by intros [= -> -> -> ->]. Qed.

(** "Not ranked after" is transitive. *)
Lemma not_less_trans orderBy a b c :
  less orderBy b a = false → less orderBy c b = false →
  less orderBy c a = false.
Proof.
  intros Hba Hcb. destruct (less orderBy c a) eqn:Hca; [|done].
  destruct (less_total orderBy a b) as [Hab|[Hab|Hab]].
  - by rewrite (less_trans _ _ _ _ Hca Hab) in Hcb.
  - by rewrite (less_shown_r _ _ _ _ Hab), Hcb in Hca.
  - congruence.
Qed.

Lemma insert_by_Permutation lt x (l : list ActorStats) :
  insert_by lt x l ≡ₚ x :: l.
Proof.
  induction l as [|y l IH]; simpl; [done|].
  destruct (lt x y); [done|]. rewrite IH. apply perm_swap.
Qed.

Lemma insert_by_ranked orderBy x l :
  Spec.ranked orderBy l → Spec.ranked orderBy (insert_by (less orderBy) x l).
Proof.
  unfold Spec.ranked. induction l as [|y l IH]; intros Hl; simpl.
  - repeat constructor.
  - apply StronglySorted_inv in Hl as [Hl Hy].
    destruct (less orderBy x y) eqn:Hxy.
    + constructor; [by constructor|]. constructor.
      * by apply less_asym.
      * eapply Forall_impl; [exact Hy|]. intros z Hz. simpl in Hz.
        eapply not_less_trans; [|exact Hz]. by apply less_asym.
    + constructor; [by apply IH|].
      rewrite insert_by_Permutation. by constructor.
Qed.

Lemma sortByConfig_Permutation actors orderBy :
  sortByConfig actors orderBy ≡ₚ actors.
Proof.
  unfold sortByConfig. induction actors as [|x l IH]; simpl; [done|].
  by rewrite insert_by_Permutation, IH.
Qed.

Lemma sortByConfig_ranked actors orderBy :
  Spec.ranked orderBy (sortByConfig actors orderBy).
Proof.
  unfold sortByConfig. induction actors as [|x l IH]; simpl.
  - constructor.
  - by apply insert_by_ranked.
Qed.

Lemma NoDup_fmap_eq {A B : Type} (f : A → B) (l : list A) x y :
  NoDup (f <$> l) → x ∈ l → y ∈ l → f x = f y → x = y.
Proof.
  induction l as [|z l IH]; intros Hnd Hx Hy Hf.
  - by apply elem_of_nil in Hx.
  - rewrite fmap_cons in Hnd. apply NoDup_cons in Hnd as [Hz Hnd].
    apply elem_of_cons in Hx as [->|Hx]; apply elem_of_cons in Hy as [->|Hy].
    + done.
    + destruct Hz. rewrite Hf. by apply list_elem_of_fmap_2.
    + destruct Hz. rewrite <- Hf. by apply list_elem_of_fmap_2.
    + by apply IH.
Qed.

(** Whatever routine [sort.Slice] runs, identities with distinct names come
    out in one order only. *)
Lemma ranked_unique orderBy (actors sorted : list ActorStats) :
  NoDup (Name <$> actors) → sorted ≡ₚ actors → Spec.ranked orderBy sorted →
  sorted = sortByConfig actors orderBy.
Proof.
  intros Hnd Hperm Hsorted.
  apply (StronglySorted_unique_strong (fun a b => less orderBy b a = false));
    [|done|apply sortByConfig_ranked|by rewrite sortByConfig_Permutation].
  intros a b Ha Hb Hab Hba.
  rewrite Hperm in Ha. rewrite sortByConfig_Permutation in Hb.
  apply (NoDup_fmap_eq Name actors); [done..|].
  destruct (less_total orderBy a b) as [H|[H|H]]; [congruence| |congruence].
  unfold Spec.shown in H. congruence.
Qed.

End RankFacts.

(** C3. [less] puts [a] before [b] exactly when [a] is greater on the first
    key of the cascade on which they differ, or equal on the three keys and
    smaller by name; the cascade is Lines, Commits, Files when ordering by
    lines (the default), Commits, Lines, Files by commits, and Files, Lines,
    Commits by files. It is a strict total order on the shown fields, and
    the sorted slice is the one ranked permutation of identities with
    distinct names. Bob (100, 5, 2), Alice (100, 3, 2) and Zoe (50, 9, 1)
    come out as Bob, Alice, Zoe. *)
Theorem sortByConfig_ranks_by_cascade :
  (∀ orderBy a b, less orderBy a b = true ↔ Spec.ranks_before orderBy a b) ∧
  (∀ a, Spec.cascade "lines" a = (Lines a, Commits a, Files a) ∧
        Spec.cascade "commits" a = (Commits a, Lines a, Files a) ∧
        Spec.cascade "files" a = (Files a, Lines a, Commits a)) ∧
  (∀ orderBy a, less orderBy a a = false) ∧
  (∀ orderBy a b c, less orderBy a b = true → less orderBy b c = true →
                    less orderBy a c = true) ∧
  (∀ orderBy a b, less orderBy a b = true ∨ Spec.shown a = Spec.shown b ∨
                  less orderBy b a = true) ∧
  (∀ orderBy actors,
     sortByConfig actors orderBy ≡ₚ actors ∧
     Spec.ranked orderBy (sortByConfig actors orderBy)) ∧
  (∀ orderBy actors sorted,
     NoDup (Name <$> actors) → sorted ≡ₚ actors →
     Spec.ranked orderBy sorted → sorted = sortByConfig actors orderBy) ∧
  sortByConfig [Fixture.Alice; Fixture.Zoe; Fixture.Bob] "lines" =
    [Fixture.Bob; Fixture.Alice; Fixture.Zoe].
Proof.
  split; [apply less_spec|]. split; [done|].
  split; [apply less_irrefl|]. split; [apply less_trans|].
  split; [apply less_total|].
  split; [split; [apply sortByConfig_Permutation|apply sortByConfig_ranked]|].
  split; [apply ranked_unique|]. reflexivity.
Qed.

Lemma sortByConfig_ranks_by_cascade_witness :
  [Fixture.Bob; Fixture.Alice; Fixture.Zoe] =
    sortByConfig [Fixture.Alice; Fixture.Bob; Fixture.Zoe] "lines".
Proof.
  apply (proj1 (proj2 (proj2 (proj2 (proj2 (proj2 (proj2
           sortByConfig_ranks_by_cascade))))))
           "lines" [Fixture.Alice; Fixture.Bob; Fixture.Zoe]
           [Fixture.Bob; Fixture.Alice; Fixture.Zoe]).
  - apply (bool_decide_unpack _). vm_compute. exact I.
  - apply perm_swap.
  - repeat constructor.
Defined.

(** ** The order of the merges *)

Section MergeOrder.

Implicit Types (results : list (gmap string ActorStats)).

Lemma merge_entry_partial a cur info :
  Spec.merged_stat a cur → Spec.partial_stat a info →
  ∃ st, Spec.merge_entry cur info = Ret st ∧ Spec.merged_stat a (Some st).
Proof.
  intros Hcur (Hname & (s & Hs & _) & Hcom & _).
  destruct cur as [existing|]; simpl.
  - destruct (Hcur _ eq_refl) as (Hn & [se Hse] & Hc).
    rewrite Hse, add_commits_Some. simpl. eexists. split; [done|].
    intros ? [= <-]. simpl. eauto.
  - exists info. split; [done|]. intros ? [= <-]. rewrite Hs. eauto.
Qed.

Lemma merge_entry_swap a cur i1 i2 :
  Spec.merged_stat a cur → Spec.partial_stat a i1 → Spec.partial_stat a i2 →
  (st ← Spec.merge_entry cur i1; Spec.merge_entry (Some st) i2) =
  (st ← Spec.merge_entry cur i2; Spec.merge_entry (Some st) i1).
Proof.
  intros Hcur (Hn1 & (s1 & Hs1 & _) & Hc1 & _) (Hn2 & (s2 & Hs2 & _) & Hc2 & _).
  destruct cur as [existing|]; simpl.
  - destruct (Hcur _ eq_refl) as (_ & [se Hse] & _).
    rewrite Hse, Hs1, Hs2, !add_commits_Some. simpl.
    rewrite !add_commits_Some. simpl. rewrite !wrap64_add_l.
    f_equal. f_equal; [f_equal; lia| |f_equal; lia].
    f_equal. set_solver.
  - rewrite Hs1, Hs2, !add_commits_Some. simpl.
    rewrite Hn1, Hn2, Hc1, Hc2, (Z.add_comm (Lines i1)),
      (Z.add_comm (Files i1)).
    do 3 f_equal. set_solver.
Qed.

Lemma fold_entry_Permutation a (infos infos' : list ActorStats) :
  infos ≡ₚ infos' → ∀ cur,
  Spec.merged_stat a cur → Forall (Spec.partial_stat a) infos →
  Spec.fold_entry cur infos = Spec.fold_entry cur infos'.
Proof.
  induction 1 as [|x l l' _ IH|x y l|l l' l'' Hp IH Hp' IH'];
    intros cur Hcur Hall.
  - done.
  - apply Forall_cons in Hall as [Hx Hall]. cbn [Spec.fold_entry].
    destruct (merge_entry_partial _ _ _ Hcur Hx) as (st & -> & Hst). simpl.
    by apply IH.
  - apply Forall_cons in Hall as [Hy Hall].
    apply Forall_cons in Hall as [Hx Hall]. cbn [Spec.fold_entry].
    pose proof (merge_entry_swap _ _ _ _ Hcur Hy Hx) as Hswap.
    destruct (merge_entry_partial _ _ _ Hcur Hy) as (sy & Hsy & Hy').
    destruct (merge_entry_partial _ _ _ Hcur Hx) as (sx & Hsx & Hx').
    rewrite Hsy, Hsx in *. simpl in *. by rewrite Hswap.
  - rewrite IH by done. apply IH'; [done|]. by rewrite <- Hp.
Qed.

Lemma fold_entry_partial a (infos : list ActorStats) : ∀ cur,
  Spec.merged_stat a cur → Forall (Spec.partial_stat a) infos →
  ∃ o, Spec.fold_entry cur infos = Ret o.
Proof.
  induction infos as [|info infos IH]; intros cur Hcur Hall.
  - by eexists.
  - apply Forall_cons in Hall as [Hx Hall]. cbn [Spec.fold_entry].
    destruct (merge_entry_partial _ _ _ Hcur Hx) as (st & -> & Hst). simpl.
    by apply IH.
Qed.

Lemma infos_partial a results :
  Forall Spec.partial_stats results →
  Forall (Spec.partial_stat a) (Spec.infos a results).
Proof.
  intros Hall. apply Forall_forall. intros info Hin.
  apply list_elem_of_omap in Hin as (stats & Hin & Hstats).
  rewrite Forall_forall in Hall. by eapply Hall.
Qed.

(** Per-file results that hold statistics of records only are reduced
    without a panic, and to the same aggregate in whatever order they
    arrive. *)
Lemma reduce_Permutation results results' :
  Forall Spec.partial_stats results → results ≡ₚ results' →
  ∃ final, reduce results = Ret final ∧ reduce results' = Ret final.
Proof.
  intros Hall Hperm.
  assert (Forall Spec.partial_stats results') as Hall' by (by rewrite <- Hperm).
  assert (∀ a, Spec.merged_stat a ((∅ : gmap string ActorStats) !! a))
    as Hempty.
  { intros a e He. by rewrite lookup_empty in He. }
  destruct (for_range_merge_file_total results ∅) as [acc Hacc].
  { intros a. apply (fold_entry_partial a); [done|by apply infos_partial]. }
  destruct (for_range_merge_file_total results' ∅) as [acc' Hacc'].
  { intros a. apply (fold_entry_partial a); [done|by apply infos_partial]. }
  assert (acc = acc') as <-.
  { apply map_eq. intros a.
    pose proof (for_range_merge_file _ _ _ Hacc a) as H.
    pose proof (for_range_merge_file _ _ _ Hacc' a) as H'.
    rewrite (fold_entry_Permutation a (Spec.infos a results)
               (Spec.infos a results')) in H.
    - rewrite H in H'. by injection H'.
    - unfold Spec.infos. by rewrite Hperm.
    - apply Hempty.
    - by apply infos_partial. }
  exists (finalize <$> acc). unfold reduce. by rewrite Hacc, Hacc'.
Qed.

(** What the extractor returns holds statistics of records only, unless the
    blame was empty. *)
Lemma calculateStats_partial_stats config out log_out stats :
  (String.length out =? 0)%nat = false →
  calculateStats config {| blame := Some out; log := log_out |} = Ret stats →
  Spec.partial_stats stats.
Proof.
  intros Hlen Hrun. rewrite calculateStats_blamed in Hrun by done.
  eapply accumulate_partial_stats; [done|apply partial_stats_empty].
Qed.

(** Apart from a failed fallback, complete answers give statistics of
    records only. *)
Lemma calculateStats_complete config git :
  Spec.answers_complete config git = true →
  Spec.fallback_failed git = false →
  ∃ stats, calculateStats config git = Ret stats ∧ Spec.partial_stats stats.
Proof.
  unfold Spec.answers_complete, Spec.fallback_failed.
  destruct git as [[out|] log_out]; cbn [blame log].
  2: { intros _ _. exists ∅. split; [done|apply partial_stats_empty]. }
  destruct (String.length out =? 0)%nat eqn:Hlen.
  - destruct log_out as [log_out|]; [|done]. intros Hnl _.
    unfold calculateStats, infoEmptyFile, index. cbn [blame log]. rewrite Hlen.
    pose proof (Split_length log_out "010") as Hsplit.
    apply Nat.leb_le in Hnl.
    destruct (GoStr.Split log_out "010") as [|hash [|actor rest]];
      simpl in Hsplit; [lia..|].
    eexists. split; [done|]. intros a st Hst. simpl in Hst.
    apply lookup_singleton_Some in Hst as [<- <-].
    repeat split. exists {[ hash ]}. split; [done|set_solver].
  - intros Hall _. rewrite calculateStats_blamed by (by destruct log_out).
    by apply accumulate_complete, partial_stats_empty.
Qed.

Lemma collect_total {A B : Type} (f : A → outcome B) (P : B → Prop) l :
  Forall (fun x => ∃ y, f x = Ret y ∧ P y) l →
  ∃ ys, collect f l = Ret ys ∧ Forall P ys.
Proof.
  induction 1 as [|x l (y & Hy & Py) _ (ys & Hys & Pys)]; simpl.
  - by exists [].
  - rewrite Hy. simpl. rewrite Hys. simpl. exists (y :: ys).
    split; [done|by constructor].
Qed.

Lemma collect_Permutation {A B : Type} (f : A → outcome B) l l' :
  l ≡ₚ l' → ∀ ys, collect f l = Ret ys →
  ∃ ys', collect f l' = Ret ys' ∧ ys ≡ₚ ys'.
Proof.
  induction 1 as [|x l l' _ IH|x y l|l l' l'' _ IH _ IH']; intros ys Hys.
  - by exists ys.
  - simpl in *. destruct (f x) as [z|]; [|done]. simpl in *.
    destruct (collect f l) as [zs|]; [|done]. simpl in Hys.
    injection Hys as <-. destruct (IH _ eq_refl) as (zs' & -> & Hp).
    simpl. exists (z :: zs'). split; [done|by constructor].
  - simpl in *. destruct (f y) as [zy|]; [|done]. simpl in *.
    destruct (f x) as [zx|]; [|done]. simpl in *.
    destruct (collect f l) as [zs|]; [|done]. simpl in *.
    injection Hys as <-. exists (zx :: zy :: zs). split; [done|apply perm_swap].
  - destruct (IH _ Hys) as (ys' & Hys' & Hp).
    destruct (IH' _ Hys') as (ys'' & Hys'' & Hp').
    exists ys''. split; [done|by etrans].
Qed.

(** Where every file is answered completely and no fallback query failed,
    [aggregateStats] returns, and returns the same aggregate whatever the
    order in which the workers deliver. *)
Lemma aggregateStats_Permutation config git arrival arrival' :
  Forall (fun file => Spec.answers_complete config (git file) = true ∧
                      Spec.fallback_failed (git file) = false) arrival →
  arrival ≡ₚ arrival' →
  ∃ final, aggregateStats config git arrival = Ret final ∧
           aggregateStats config git arrival' = Ret final.
Proof.
  intros Hall Hperm. unfold aggregateStats.
  destruct (collect_total (fun file => calculateStats config (git file))
              Spec.partial_stats arrival) as (results & Hres & Hpartial).
  { eapply Forall_impl; [exact Hall|]. intros file [Hc Hf].
    by apply calculateStats_complete. }
  destruct (collect_Permutation _ _ _ Hperm _ Hres) as (results' & Hres' & Hp).
  rewrite Hres, Hres'. simpl. by apply reduce_Permutation.
Qed.

End MergeOrder.

(** ** The order in which a map is ranged over *)

Lemma for_range_merge_actor_panic (l : list (string * ActorStats)) :
  ∀ (final : gmap string ActorStats) p,
  for_range merge_actor l final = Panic p → p = NilMapAssignment.
Proof.
  induction l as [|[a info] l IH]; intros final p Hrun; [done|].
  cbn [for_range] in Hrun. rewrite merge_actor_entry in Hrun.
  destruct (Spec.merge_entry (final !! a) info) as [st|q] eqn:Hst.
  - simpl in Hrun. by eapply IH.
  - simpl in Hrun. injection Hrun as <-.
    destruct (final !! a) as [existing|]; [|done]. simpl in Hst.
    destruct (commitsSet existing) as [d|].
    + by rewrite add_commits_Some in Hst.
    + rewrite add_commits_None in Hst.
      case_decide; simpl in Hst; congruence.
Qed.

(** The Go runtime ranges over a map in an order of its choosing: the merge
    of a per-file map comes out the same for each. *)
Lemma merge_file_any_order (stats final : gmap string ActorStats)
    (l : list (string * ActorStats)) :
  l ≡ₚ map_to_list stats →
  for_range merge_actor l final = merge_file stats final.
Proof.
  intros Hperm. unfold merge_file.
  assert (NoDup l.*1) as Hnd.
  { rewrite Hperm. apply NoDup_fst_map_to_list. }
  pose proof (NoDup_fst_map_to_list stats) as Hnd'.
  destruct (for_range merge_actor l final) as [acc|p] eqn:Hl;
    destruct (for_range merge_actor (map_to_list stats) final)
      as [acc'|p'] eqn:Hl'.
  - f_equal. apply map_eq. intros a.
    pose proof (for_range_merge_actor _ Hnd _ _ Hl a) as [Hout Hin].
    pose proof (for_range_merge_actor _ Hnd' _ _ Hl' a) as [Hout' Hin'].
    destruct (stats !! a) as [info|] eqn:Ha.
    + assert ((a, info) ∈ map_to_list stats) as Hel
        by (by apply elem_of_map_to_list).
      destruct (Hin' _ Hel) as (st' & Hm' & ->).
      rewrite <- Hperm in Hel. destruct (Hin _ Hel) as (st & Hm & ->).
      congruence.
    + assert (a ∉ (map_to_list stats).*1) as Hnot.
      { intros Hel. apply list_elem_of_fmap in Hel as ([a' i] & -> & Hel).
        apply elem_of_map_to_list in Hel. simpl in Ha. congruence. }
      rewrite (Hout' Hnot). apply Hout. by rewrite Hperm.
  - exfalso.
    destruct (for_range_merge_actor_total _ Hnd' final) as [? Htot];
      [|congruence].
    intros a info Hel. rewrite <- Hperm in Hel.
    destruct (proj2 (for_range_merge_actor _ Hnd _ _ Hl a) _ Hel)
      as (st & Hst & _). eauto.
  - exfalso.
    destruct (for_range_merge_actor_total _ Hnd final) as [? Htot];
      [|congruence].
    intros a info Hel. rewrite Hperm in Hel.
    destruct (proj2 (for_range_merge_actor _ Hnd' _ _ Hl' a) _ Hel)
      as (st & Hst & _). eauto.
  - apply for_range_merge_actor_panic in Hl, Hl'. congruence.
Qed.

(** * Further properties *)

(** ** Listing the files *)

Lemma scan_raw_line (file rest : string) :
  Spec.count_byte "010" file = 0%nat →
  scan_raw (file +:+ String "010" rest) = file :: scan_raw rest.
Proof.
  induction file as [|c file IH]; intros Hnl; [done|].
  cbn [Spec.count_byte] in Hnl.
  change (scan_raw (String c (file +:+ String "010" rest))
          = String c file :: scan_raw rest).
  cbn [scan_raw]. destruct (Ascii.eqb c "010"); [simpl in Hnl; lia|].
  by rewrite IH by (simpl in Hnl; lia).
Qed.

Lemma scan_raw_last (file : string) :
  Spec.count_byte "010" file = 0%nat → file ≠ "" → scan_raw file = [file].
Proof.
  induction file as [|c file IH]; intros Hnl Hne; [done|].
  cbn [Spec.count_byte] in Hnl. cbn [scan_raw].
  destruct (Ascii.eqb c "010"); [simpl in Hnl; lia|].
  destruct file as [|c' file]; [done|].
  by rewrite IH by (simpl in *; (lia || done)).
Qed.

Lemma dropCR_cases (data : string) :
  dropCR data = data ∨ data = dropCR data +:+ String "013" "".
Proof.
  induction data as [|c data IH]; [by left|].
  destruct data as [|c' data].
  - cbn [dropCR]. destruct (Ascii.eqb_spec c "013") as [->|]; [by right|by left].
  - change (dropCR (String c (String c' data)))
      with (String c (dropCR (String c' data))).
    destruct IH as [->|IH]; [by left|right].
    change (String c (String c' data) =
            String c (dropCR (String c' data) +:+ String "013" "")).
    by rewrite <- IH.
Qed.

Lemma dropCR_listable (file : string) :
  Spec.listable file = true → dropCR file = file.
Proof.
  unfold Spec.listable. rewrite !andb_true_iff, negb_true_iff.
  intros [[_ Hcr] _]. destruct (dropCR_cases file) as [?|Hcase]; [done|].
  assert (GoStr.HasSuffix file (String "013" "") = true) as H.
  { apply HasSuffix_spec. by exists (dropCR file). }
  congruence.
Qed.

Lemma append_assoc (s1 s2 s3 : string) :
  (s1 +:+ s2) +:+ s3 = s1 +:+ (s2 +:+ s3).
Proof.
  induction s1 as [|c s1 IH]; [done|].
  change (String c ((s1 +:+ s2) +:+ s3) = String c (s1 +:+ (s2 +:+ s3))).
  by rewrite IH.
Qed.

Lemma append_nil_r (s : string) : s +:+ "" = s.
Proof.
  induction s as [|c s IH]; [done|].
  change (String c (s +:+ "") = String c s). by rewrite IH.
Qed.

Lemma path_lines_cons (file : string) (files : list string) :
  Spec.path_lines (file :: files) =
    file +:+ String "010" (Spec.path_lines files).
Proof. done. Qed.

Lemma scan_raw_path_lines (files : list string) (last : string) :
  Forall (fun file => Spec.listable file = true) files →
  scan_raw (Spec.path_lines files +:+ last) = files ++ scan_raw last.
Proof.
  induction 1 as [|file files Hfile _ IH]; [done|].
  rewrite path_lines_cons, append_assoc.
  change (String "010" (Spec.path_lines files) +:+ last)
    with (String "010" (Spec.path_lines files +:+ last)).
  unfold Spec.listable in Hfile. rewrite !andb_true_iff in Hfile.
  destruct Hfile as [[Hnl _] _]. apply Nat.eqb_eq in Hnl.
  rewrite scan_raw_line by done. by rewrite IH.
Qed.

(** X1. [getFiles] hands back the paths that [git ls-tree] printed one a
    line: the newline that ends the listing adds no empty path, and a last
    line without a newline is a path as well. *)
Theorem getFiles_reads_listing (files : list string) (last : string) :
  Forall (fun file => Spec.listable file = true) files →
  Spec.listable last = true → last ≠ "" →
  getFiles (Some (Spec.path_lines files)) = files ∧
  getFiles (Some (Spec.path_lines files +:+ last)) = files ++ [last].
Proof.
  intros Hfiles Hlast Hne.
  assert (∀ l, Forall (fun file => Spec.listable file = true) l →
            (if forallb (fun line =>
                           Z.of_nat (String.length line) <? MaxScanTokenSize) l
             then dropCR <$> l else []) = l) as Hok.
  { intros l Hl.
    assert (forallb (fun line =>
              Z.of_nat (String.length line) <? MaxScanTokenSize) l = true) as ->.
    { apply forallb_forall. intros x Hx. rewrite Forall_forall in Hl.
      apply list_elem_of_In, Hl in Hx. unfold Spec.listable in Hx.
      by apply andb_true_iff in Hx as [_ ?]. }
    induction Hl as [|x l Hx _ IH]; [done|].
    rewrite fmap_cons, IH. by rewrite dropCR_listable. }
  split.
  - unfold getFiles.
    pose proof (scan_raw_path_lines files "" Hfiles) as H.
    rewrite append_nil_r in H. rewrite H. simpl. rewrite app_nil_r.
    by apply Hok.
  - unfold getFiles. rewrite (scan_raw_path_lines files last Hfiles).
    rewrite scan_raw_last; [|unfold Spec.listable in Hlast|done].
    + apply Hok. apply Forall_app. split; [done|]. by constructor.
    + rewrite !andb_true_iff in Hlast. destruct Hlast as [[Hnl _] _].
      by apply Nat.eqb_eq in Hnl.
Qed.

Lemma getFiles_reads_listing_witness :
  getFiles (Some (Spec.path_lines ["main.go"; "docs/README.md"])) =
    ["main.go"; "docs/README.md"] ∧
  getFiles (Some (Spec.path_lines ["main.go"; "docs/README.md"] +:+ "go.mod"))
    = ["main.go"; "docs/README.md"] ++ ["go.mod"].
Proof.
  apply (getFiles_reads_listing ["main.go"; "docs/README.md"] "go.mod").
  - repeat constructor.
  - reflexivity.
  - discriminate.
Defined.

(** ** What one file gives one identity *)

Section PerFile.

Implicit Types (acc : gmap string ActorStats).

Lemma record_line_exact config hash n after acc :
  Spec.record_complete config (hash, n, after) = true →
  Spec.partial_stats acc →
  let a := Spec.record_identity config (hash, n, after) in
  record_line config hash n after acc =
    Ret (<[a := {| Name := a;
                   Lines := GoInt.wrap64 (from_option Lines 0 (acc !! a) + n);
                   commitsSet :=
                     Some ({[ hash ]} ∪ from_option Spec.commits_in ∅ (acc !! a));
                   Commits := 0; Files := 1 |}]> acc).
Proof.
  unfold Spec.record_complete, Spec.identity_lines, Spec.record_identity,
    record_line, index. cbn [snd]. intros Hlen Hacc.
  apply Nat.leb_le in Hlen.
  assert (∃ l1, after !! 0%nat = Some l1) as [l1 H1].
  { apply lookup_lt_is_Some. destruct (UseCommitter config); lia. }
  rewrite H1. cbn [mbind outcome_bind default from_option id].
  set (actor := if UseCommitter config
                then GoStr.TrimPrefix (default "" (after !! 4%nat)) "committer "
                else GoStr.TrimPrefix l1 "author ").
  assert ((if UseCommitter config
           then l5 ← match after !! 4%nat with
                     | Some x => Ret x
                     | None => Panic IndexOutOfRange
                     end; Ret (GoStr.TrimPrefix l5 "committer ")
           else Ret (GoStr.TrimPrefix l1 "author ")) = Ret actor) as ->.
  { subst actor. destruct (UseCommitter config); [|done].
    assert (∃ l5, after !! 4%nat = Some l5) as [l5 ->]
      by (apply lookup_lt_is_Some; lia).
    done. }
  cbn [mbind outcome_bind].
  destruct (acc !! actor) as [old|] eqn:Hold.
  - rewrite Hold. cbn [default from_option id].
    destruct (Hacc _ _ Hold) as (Hname & (cs & Hcs & Hne) & Hcom & Hfiles).
    rewrite Hcs. unfold Spec.commits_in. rewrite Hcs, Hcom, Hfiles. done.
  - rewrite lookup_insert_eq. cbn [default from_option id commitsSet].
    by rewrite insert_insert_eq.
Qed.

Lemma entry_after_cons config a (r : Spec.record) records cur :
  Spec.entry_after a cur (Spec.records_of config a (r :: records)) =
    Spec.entry_after a
      (if String.eqb (Spec.record_identity config r) a
       then Spec.entry_after a cur [r] else cur)
      (Spec.records_of config a records).
Proof.
  unfold Spec.records_of. cbn [List.filter].
  destruct (String.eqb (Spec.record_identity config r) a); [|done].
  destruct (List.filter _ records) as [|r' rs] eqn:Hrs.
  - done.
  - unfold Spec.entry_after. f_equal. f_equal.
    + cbn [from_option Lines]. rewrite wrap64_add_l. f_equal.
      unfold Spec.lines_of. cbn [foldr]. lia.
    + f_equal. unfold Spec.hashes_of, Spec.commits_in.
      cbn [from_option commitsSet default id].
      rewrite !fmap_cons, !list_to_set_cons. set_solver.
Qed.

Lemma accumulate_entries config (records : list Spec.record) : ∀ acc acc' a,
  Spec.accumulate config records acc = Ret acc' →
  Spec.partial_stats acc →
  acc' !! a = Spec.entry_after a (acc !! a) (Spec.records_of config a records).
Proof.
  induction records as [|[[hash n] after] records IH]; intros acc acc' a Hrun Hacc.
  - by injection Hrun as <-.
  - unfold Spec.accumulate in Hrun. cbn [for_range] in Hrun.
    destruct (Spec.record_complete config (hash, n, after)) eqn:Hr.
    2: { by rewrite record_line_incomplete in Hrun. }
    destruct (record_line_complete _ _ _ _ _ Hr Hacc) as (acc1 & Hrec & H1 & _).
    pose proof (record_line_exact _ _ _ _ _ Hr Hacc) as Hexact.
    simpl in Hexact. rewrite Hexact in Hrec. injection Hrec as Hacc1.
    rewrite Hexact in Hrun. simpl in Hrun. rewrite Hacc1 in Hrun.
    rewrite (IH _ _ a Hrun H1), entry_after_cons. f_equal.
    destruct (String.eqb_spec (Spec.record_identity config (hash, n, after)) a)
      as [Heq|Hne].
    + rewrite <- Hacc1, <- Heq, lookup_insert_eq.
      unfold Spec.entry_after, Spec.lines_of, Spec.hashes_of. cbn [foldr fst snd].
      f_equal. f_equal; [by rewrite Z.add_0_r|].
      f_equal. rewrite fmap_cons, list_to_set_cons. cbn [fst snd]. set_solver.
    + rewrite <- Hacc1. by rewrite lookup_insert_ne.
Qed.

End PerFile.

(** X2. For a blame output that is not empty, what [calculateStats] returns
    holds an entry for an identity exactly when a record reached by the loop
    is attributed to it, and that entry is the identity's name, the wrapped
    sum of the counts of those records, the set of their commits, and one
    file. *)
Theorem calculateStats_sums_records config out log_out stats a :
  (String.length out =? 0)%nat = false →
  calculateStats config {| blame := Some out; log := log_out |} = Ret stats →
  stats !! a =
    match Spec.records_of config a
            (Spec.reached_records (GoStr.Split out "010")) with
    | [] => None
    | records =>
        Some {| Name := a; Lines := GoInt.wrap64 (Spec.lines_of records);
                commitsSet := Some (Spec.hashes_of records);
                Commits := 0; Files := 1 |}
    end.
Proof.
  intros Hlen Hrun. rewrite calculateStats_blamed in Hrun by done.
  rewrite (accumulate_entries _ _ _ _ a Hrun partial_stats_empty).
  rewrite lookup_empty. unfold Spec.entry_after.
  destruct (Spec.records_of _ _ _) as [|r rs]; [done|].
  cbn [from_option]. f_equal. f_equal. f_equal. set_solver.
Qed.

Lemma calculateStats_sums_records_witness :
  ({[ "Dev1" := {| Name := "Dev1"; Lines := 7;
                   commitsSet := Some {[ Fixture.C1 ]};
                   Commits := 0; Files := 1 |};
      "Dev2" := {| Name := "Dev2"; Lines := 2;
                   commitsSet := Some {[ Fixture.C2 ]};
                   Commits := 0; Files := 1 |} ]}
     : gmap string ActorStats) !! "Dev1" =
    match Spec.records_of (Fixture.config false) "Dev1"
            (Spec.reached_records (GoStr.Split Fixture.split_runs "010")) with
    | [] => None
    | records =>
        Some {| Name := "Dev1"; Lines := GoInt.wrap64 (Spec.lines_of records);
                commitsSet := Some (Spec.hashes_of records);
                Commits := 0; Files := 1 |}
    end.
Proof.
  apply (calculateStats_sums_records (Fixture.config false) Fixture.split_runs
           None); vm_compute; reflexivity.
Defined.

(** ** One file, one count *)

Section FileCount.

Implicit Types (results : list (gmap string ActorStats)).






End FileCount.



(** ** A record that fails to parse *)






(** The condition of C8 matters on bytes that are no porcelain output: when
    the header of a record stands on the very line after a header with an
    unreadable count, the loop steps over it and the record is lost,
    although it parses. *)
Lemma parse_failure_loses_next_header :
  Spec.author_follows_failure
    (GoStr.Split Fixture.bad_header_then_header "010") = false ∧
  ¬ Spec.skips_only_failed_record (Fixture.config false)
      Fixture.bad_header_then_header.
Proof.
  split; [by vm_compute|].
  unfold Spec.skips_only_failed_record.
  assert (calculateStats (Fixture.config false)
            {| blame := Some Fixture.bad_header_then_header; log := None |}
          = Ret ∅) as -> by (vm_compute; reflexivity).
  assert (Spec.accumulate (Fixture.config false)
            (Spec.parsed_records
               (GoStr.Split Fixture.bad_header_then_header "010")) ∅
          = Ret {[ "Dev2" := {| Name := "Dev2"; Lines := 5;
                                commitsSet := Some {[ Fixture.C2 ]};
                                Commits := 0; Files := 1 |} ]}) as ->
    by (vm_compute; reflexivity).
  intros H.
  apply (f_equal (fun o : outcome (gmap string ActorStats) =>
                    match o with Ret m => m !! "Dev2" | Panic _ => None end))
    in H.
  vm_compute in H. discriminate.
Qed.

(** ** Header lines *)

Section HeaderFacts.

Lemma all_bytes_cons p c (s : string) :
  Spec.all_bytes p (String c s) = p c && Spec.all_bytes p s.
Proof. done. Qed.

Lemma all_bytes_no_byte p sep (s : string) :
  p sep = false → Spec.all_bytes p s = true → Spec.count_byte sep s = 0%nat.
Proof.
  intros Hsep. induction s as [|c s IH]; [done|].
  rewrite all_bytes_cons, andb_true_iff. intros [Hc Hs].
  cbn [Spec.count_byte]. rewrite (IH Hs).
  destruct (Ascii.eqb_spec c sep) as [->|]; [congruence|done].
Qed.

Lemma Split_piece (piece rest : string) sep :
  Spec.count_byte sep piece = 0%nat →
  GoStr.Split (piece +:+ String sep rest) sep = piece :: GoStr.Split rest sep.
Proof.
  induction piece as [|c piece IH]; intros Hnone.
  - change (GoStr.Split (String sep rest) sep = "" :: GoStr.Split rest sep).
    cbn [GoStr.Split]. by rewrite Ascii.eqb_refl.
  - cbn [Spec.count_byte] in Hnone.
    change (GoStr.Split (String c (piece +:+ String sep rest)) sep
            = String c piece :: GoStr.Split rest sep).
    cbn [GoStr.Split]. destruct (Ascii.eqb c sep); [simpl in Hnone; lia|].
    by rewrite IH by (simpl in Hnone; lia).
Qed.

Lemma Split_head c (s : string) sep :
  Ascii.eqb c sep = false →
  ∃ piece pieces, GoStr.Split (String c s) sep = String c piece :: pieces.
Proof.
  intros Hc. cbn [GoStr.Split]. rewrite Hc.
  destruct (GoStr.Split s sep) as [|piece pieces]; eauto.
Qed.

Lemma eat_hex_append n : ∀ core rest : string,
  String.length core = n → Spec.all_bytes GoStr.is_hex_lower core = true →
  eat_hex n (core +:+ rest) = Some rest.
Proof.
  induction n as [|n IH]; intros [|c core] rest Hlen Hhex; try done.
  rewrite all_bytes_cons, andb_true_iff in Hhex. destruct Hhex as [Hc Hhex].
  change (eat_hex (S n) (String c (core +:+ rest)) = Some rest).
  cbn [eat_hex]. rewrite Hc. apply IH; [by injection Hlen|done].
Qed.

Lemma eat_hex_inv n : ∀ s s' : string,
  eat_hex n s = Some s' →
  ∃ core, s = core +:+ s' ∧ String.length core = n ∧
          Spec.all_bytes GoStr.is_hex_lower core = true.
Proof.
  induction n as [|n IH]; intros s s' H; simpl in H.
  - injection H as <-. by exists "".
  - destruct s as [|c s]; [done|].
    destruct (GoStr.is_hex_lower c) eqn:Hc; [|done].
    destruct (IH _ _ H) as (core & -> & Hlen & Hhex).
    exists (String c core). split; [done|]. split; [by rewrite <- Hlen|].
    by rewrite all_bytes_cons, Hc.
Qed.

Lemma skip_digits_append (d rest : string) :
  Spec.all_bytes GoStr.is_digit d = true → Spec.digits_end rest →
  skip_digits (d +:+ rest) = rest.
Proof.
  intros Hd Hrest. induction d as [|c d IH].
  - destruct rest as [|c rest]; [done|]. simpl in Hrest.
    change (skip_digits (String c rest) = String c rest).
    cbn [skip_digits]. by rewrite Hrest.
  - rewrite all_bytes_cons, andb_true_iff in Hd. destruct Hd as [Hc Hd].
    change (skip_digits (String c (d +:+ rest)) = rest).
    cbn [skip_digits]. rewrite Hc. by apply IH.
Qed.

Lemma eat_digits_append (d rest : string) :
  Spec.decimal d → Spec.digits_end rest → eat_digits (d +:+ rest) = Some rest.
Proof.
  intros [Hne Hd] Hrest. destruct d as [|c d]; [done|].
  rewrite all_bytes_cons, andb_true_iff in Hd. destruct Hd as [Hc Hd].
  change (eat_digits (String c (d +:+ rest)) = Some rest).
  cbn [eat_digits]. rewrite Hc. f_equal. by apply skip_digits_append.
Qed.

Lemma skip_digits_inv (s : string) :
  ∃ d, s = d +:+ skip_digits s ∧ Spec.all_bytes GoStr.is_digit d = true.
Proof.
  induction s as [|c s (d & Hd & Hall)]; [by exists ""|].
  cbn [skip_digits]. destruct (GoStr.is_digit c) eqn:Hc.
  - exists (String c d). split; [|by rewrite all_bytes_cons, Hc].
    change (String c s = String c (d +:+ skip_digits s)). by rewrite <- Hd.
  - by exists "".
Qed.

Lemma eat_digits_inv (s s' : string) :
  eat_digits s = Some s' → ∃ d, s = d +:+ s' ∧ Spec.decimal d.
Proof.
  destruct s as [|c s]; [done|]. cbn [eat_digits].
  destruct (GoStr.is_digit c) eqn:Hc; [|done]. intros [= <-].
  destruct (skip_digits_inv s) as (d & Hd & Hall).
  exists (String c d). split; [|split; [done|by rewrite all_bytes_cons, Hc]].
  change (String c s = String c (d +:+ skip_digits s)). by rewrite <- Hd.
Qed.

Lemma eat_space_inv (s s' : string) :
  eat_space s = Some s' → s = String " " s'.
Proof.
  destruct s as [|c s]; [done|]. unfold eat_space.
  destruct (Ascii.eqb_spec c " ") as [->|Hc]; [by intros [= <-]|].
  destruct c as [[] [] [] [] [] [] [] []]; done.
Qed.

Lemma digit_value_range c :
  GoStr.is_digit c = true → 0 ≤ GoInt.digit_value c ≤ 9.
Proof.
  unfold GoStr.is_digit, GoInt.digit_value.
  rewrite andb_true_iff, !Nat.leb_le. lia.
Qed.

Lemma digits_value_nonneg (s : string) : ∀ acc n,
  0 ≤ acc → GoInt.digits_value s acc = Some n → 0 ≤ n.
Proof.
  induction s as [|c s IH]; intros acc n Hacc H; simpl in H.
  - by injection H as <-.
  - destruct (GoStr.is_digit c) eqn:Hc; [|done].
    apply IH in H; [done|]. pose proof (digit_value_range c Hc). lia.
Qed.

Lemma digits_value_decimal (s : string) : ∀ acc,
  Spec.all_bytes GoStr.is_digit s = true →
  ∃ n, GoInt.digits_value s acc = Some n.
Proof.
  induction s as [|c s IH]; intros acc Hd; [by eexists|].
  rewrite all_bytes_cons, andb_true_iff in Hd. destruct Hd as [Hc Hd].
  simpl. rewrite Hc. by apply IH.
Qed.

(** A count that starts with a digit has no sign for [Atoi] to read. *)
Lemma Atoi_unsigned c (s : string) :
  GoStr.is_digit c = true →
  GoInt.Atoi (String c s) =
    match GoInt.digits_value (String c s) 0 with
    | Some n => if (GoInt.min_int <=? n) && (n <=? GoInt.max_int)
                then Some n else None
    | None => None
    end.
Proof.
  intros Hc. unfold GoInt.Atoi.
  destruct c as [[] [] [] [] [] [] [] []]; try discriminate Hc; reflexivity.
Qed.

Lemma Atoi_count_range c (s : string) v :
  GoStr.is_digit c = true → GoInt.Atoi (String c s) = Some v →
  0 ≤ v ≤ GoInt.max_int.
Proof.
  intros Hc. rewrite (Atoi_unsigned _ _ Hc).
  destruct (GoInt.digits_value (String c s) 0) as [n|] eqn:Hn; [|done].
  apply digits_value_nonneg in Hn; [|done].
  destruct (_ && _) eqn:Hr; [|done]. intros [= <-].
  apply andb_true_iff in Hr as [_ Hr]. apply Z.leb_le in Hr. lia.
Qed.

Lemma TrimPrefix_append (prefix s : string) :
  GoStr.TrimPrefix (prefix +:+ s) prefix = s.
Proof.
  unfold GoStr.TrimPrefix.
  assert (GoStr.HasPrefix (prefix +:+ s) prefix = true) as ->.
  { induction prefix as [|c prefix IH]; [by destruct s|].
    change (GoStr.HasPrefix (String c (prefix +:+ s)) (String c prefix) = true).
    cbn [GoStr.HasPrefix]. by rewrite Ascii.eqb_refl, IH. }
  apply drop_bytes_append.
Qed.

Lemma MatchString_body (s : string) :
  commitLineRegexp_MatchString s = Spec.header_body (Spec.strip_caret s).
Proof. done. Qed.

Lemma strip_caret_cases (s : string) :
  Spec.strip_caret s = s ∨ s = String "^" (Spec.strip_caret s).
Proof.
  destruct s as [|c r]; [by left|].
  destruct c as [[] [] [] [] [] [] [] []]; (by left) || (by right).
Qed.

Lemma count_byte_append c (s1 s2 : string) :
  Spec.count_byte c (s1 +:+ s2) =
    (Spec.count_byte c s1 + Spec.count_byte c s2)%nat.
Proof.
  induction s1 as [|b s1 IH]; [done|].
  change (Spec.count_byte c (String b (s1 +:+ s2)) =
          (Spec.count_byte c (String b s1) + Spec.count_byte c s2)%nat).
  cbn [Spec.count_byte]. rewrite IH. lia.
Qed.

Lemma Split_single (piece : string) sep :
  Spec.count_byte sep piece = 0%nat → GoStr.Split piece sep = [piece].
Proof.
  induction piece as [|c piece IH]; intros Hnone; [done|].
  cbn [Spec.count_byte] in Hnone. cbn [GoStr.Split].
  destruct (Ascii.eqb c sep); [simpl in Hnone; lia|].
  by rewrite IH by (simpl in Hnone; lia).
Qed.

Lemma hex_no_space (s : string) :
  Spec.all_bytes GoStr.is_hex_lower s = true → Spec.count_byte " " s = 0%nat.
Proof. by apply all_bytes_no_byte. Qed.

Lemma digits_no_space (s : string) :
  Spec.all_bytes GoStr.is_digit s = true → Spec.count_byte " " s = 0%nat.
Proof. by apply all_bytes_no_byte. Qed.

(** The fields of a line made of a commit and three numbers. *)
Lemma Split_header (pre core d1 d2 last : string) :
  Spec.count_byte " " pre = 0%nat →
  Spec.all_bytes GoStr.is_hex_lower core = true →
  Spec.all_bytes GoStr.is_digit d1 = true →
  Spec.all_bytes GoStr.is_digit d2 = true →
  GoStr.Split (pre +:+ core +:+ " " +:+ d1 +:+ " " +:+ d2 +:+ " " +:+ last) " "
    = (pre +:+ core) :: d1 :: d2 :: GoStr.Split last " ".
Proof.
  intros Hpre Hcore Hd1 Hd2. rewrite <- append_assoc.
  change (GoStr.Split ((pre +:+ core) +:+
            String " " (d1 +:+ String " " (d2 +:+ String " " last))) " "
          = (pre +:+ core) :: d1 :: d2 :: GoStr.Split last " ").
  rewrite Split_piece
    by (rewrite count_byte_append, Hpre; by rewrite hex_no_space).
  rewrite Split_piece by (by apply digits_no_space).
  by rewrite Split_piece by (by apply digits_no_space).
Qed.

End HeaderFacts.

(** X3. A header as [git blame --line-porcelain] prints it (forty hex
    digits, behind a caret for a boundary commit, and three decimal
    numbers) is read as that commit, caret included, and the value of the
    third number, or as a failed record when the value does not fit an
    [int]. The record is attributed to the name on the author line that
    follows, or with [UseCommitter] to the name on the committer line four
    lines further, and alone in a file it gives that name the count, the
    commit and one file. *)
Theorem porcelain_group_is_read config (boundary : bool)
    (commit orig final count : string) (v : Z)
    (author mail time zone committer : string) (rest : list string) :
  Spec.hex40 commit → Spec.decimal orig → Spec.decimal final →
  Spec.decimal count → GoInt.digits_value count 0 = Some v →
  let hash := (if boundary then "^" else "") +:+ commit in
  let identity := if UseCommitter config then committer else author in
  Spec.parse_header (Spec.header_line boundary commit orig final count) =
    Some (hash, if v <=? GoInt.max_int then Some v else None) ∧
  (v ≤ GoInt.max_int →
   record_line config hash v
     (Spec.group_lines author mail time zone committer rest) ∅ =
     Ret {[ identity := {| Name := identity; Lines := v;
                           commitsSet := Some {[ hash ]};
                           Commits := 0; Files := 1 |} ]}).
Proof.
  intros [Hlen Hhex] [Ho Hod] [Hf Hfd] [Hc Hcd] Hv hash identity.
  assert (0 ≤ v) as Hv0 by (by eapply digits_value_nonneg).
  set (pre := if boundary then "^" else "") in *.
  assert (Spec.count_byte " " pre = 0%nat) as Hpre by (by destruct boundary).
  split.
  - unfold Spec.parse_header, Spec.header_line. fold pre.
    assert (commitLineRegexp_MatchString
              (pre +:+ commit +:+ " " +:+ orig +:+ " " +:+ final +:+ " "
               +:+ count) = true) as ->.
    { rewrite MatchString_body.
      assert (Spec.strip_caret
                (pre +:+ commit +:+ " " +:+ orig +:+ " " +:+ final +:+ " "
                 +:+ count)
              = commit +:+ " " +:+ orig +:+ " " +:+ final +:+ " " +:+ count)
        as ->.
      { destruct boundary; [done|]. subst pre.
        change ("" +:+ ?x) with x.
        destruct commit as [|c commit]; [done|].
        rewrite all_bytes_cons, andb_true_iff in Hhex. destruct Hhex as [Hc0 _].
        destruct (strip_caret_cases
                    (String c commit +:+ " " +:+ orig +:+ " " +:+ final
                     +:+ " " +:+ count)) as [?|Hcaret]; [done|].
        injection Hcaret as -> _. done. }
      unfold Spec.header_body. rewrite eat_hex_append by done.
      change (" " +:+ ?x) with (String " " x). cbn [eat_space mbind option_bind].
      rewrite (eat_digits_append orig); [|by split|reflexivity].
      change (" " +:+ ?x) with (String " " x). cbn [eat_space mbind option_bind].
      rewrite (eat_digits_append final); [|by split|reflexivity].
      change (" " +:+ ?x) with (String " " x). cbn [eat_space mbind option_bind].
      rewrite <- (append_nil_r count).
      rewrite (eat_digits_append count); [done|by split|exact I]. }
    rewrite Split_header by done.
    rewrite Split_single by (by apply digits_no_space). cbn [lookup list_lookup].
    f_equal. f_equal. destruct count as [|c count]; [done|].
    rewrite all_bytes_cons, andb_true_iff in Hcd. destruct Hcd as [Hc0 _].
    rewrite (Atoi_unsigned _ _ Hc0), Hv.
    assert ((GoInt.min_int <=? v) = true) as ->.
    { apply Z.leb_le. unfold GoInt.min_int. lia. }
    done.
  - intros Hmax.
    pose proof (record_line_exact config hash v
                  (Spec.group_lines author mail time zone committer rest) ∅
                  ltac:(unfold Spec.record_complete, Spec.identity_lines;
                        by destruct (UseCommitter config))
                  partial_stats_empty) as Hexact.
    cbn zeta in Hexact. rewrite Hexact.
    assert (Spec.record_identity config
              (hash, v, Spec.group_lines author mail time zone committer rest)
            = identity) as ->.
    { unfold Spec.record_identity, Spec.group_lines, identity. cbn [snd].
      destruct (UseCommitter config); simpl; apply TrimPrefix_append. }
    rewrite lookup_empty. cbn [from_option].
    rewrite wrap64_id by (unfold GoInt.min_int; lia).
    rewrite Z.add_0_l, (right_id_L ∅ (∪)). by rewrite insert_empty.
Qed.

Lemma porcelain_group_is_read_witness :
  Spec.parse_header (Spec.header_line true Fixture.C1 "12" "14" "3") =
    Some ("^" +:+ Fixture.C1, Some 3) ∧
  record_line (Fixture.config true) ("^" +:+ Fixture.C1) 3
    (Spec.group_lines "Ann" "author-mail <a@x>" "author-time 1"
       "author-tz +0000" "Ben" []) ∅ =
    Ret {[ "Ben" := {| Name := "Ben"; Lines := 3;
                       commitsSet := Some {[ "^" +:+ Fixture.C1 ]};
                       Commits := 0; Files := 1 |} ]}.
Proof.
  destruct (porcelain_group_is_read (Fixture.config true) true Fixture.C1
              "12" "14" "3" 3 "Ann" "author-mail <a@x>" "author-time 1"
              "author-tz +0000" "Ben" []) as [Hheader Hrecord].
  - split; reflexivity.
  - split; [discriminate|reflexivity].
  - split; [discriminate|reflexivity].
  - split; [discriminate|reflexivity].
  - reflexivity.
  - split; [exact Hheader|]. apply Hrecord. by vm_compute.
Defined.

(** X4. Whatever line the loop takes for a header, the commit it records
    is forty hex digits, with or without a caret before them, and a count
    that parses is neither negative nor beyond an [int]. *)
Theorem header_fields_are_a_commit_and_a_count (line hash : string)
    (count : option Z) :
  Spec.parse_header line = Some (hash, count) →
  (∃ (boundary : bool) commit,
     hash = (if boundary then "^" else "") +:+ commit ∧ Spec.hex40 commit) ∧
  (∀ v, count = Some v → 0 ≤ v ≤ GoInt.max_int).
Proof.
  unfold Spec.parse_header. rewrite MatchString_body.
  destruct (Spec.header_body (Spec.strip_caret line)) eqn:Hbody; [|done].
  unfold Spec.header_body in Hbody.
  destruct (eat_hex 40 (Spec.strip_caret line)) as [s1|] eqn:H1; [|done].
  destruct (eat_space s1) as [s2|] eqn:H2; [|done]. simpl in Hbody.
  destruct (eat_digits s2) as [s3|] eqn:H3; [|done]. simpl in Hbody.
  destruct (eat_space s3) as [s4|] eqn:H4; [|done]. simpl in Hbody.
  destruct (eat_digits s4) as [s5|] eqn:H5; [|done]. simpl in Hbody.
  destruct (eat_space s5) as [s6|] eqn:H6; [|done]. simpl in Hbody.
  destruct (eat_digits s6) as [s7|] eqn:H7; [|done]. clear Hbody.
  apply eat_hex_inv in H1 as (core & Hline & Hlen & Hhex).
  apply eat_space_inv in H2, H4, H6. subst s1 s3 s5.
  apply eat_digits_inv in H3 as (d1 & -> & _ & Hd1).
  apply eat_digits_inv in H5 as (d2 & -> & _ & Hd2).
  destruct s6 as [|c s6]; [done|]. cbn [eat_digits] in H7.
  destruct (GoStr.is_digit c) eqn:Hc; [|done].
  assert (∃ boundary : bool,
            line = (if boundary then "^" else "") +:+ Spec.strip_caret line)
    as [boundary Hpre].
  { destruct (strip_caret_cases line) as [Heq|Heq].
    - exists false. by rewrite Heq.
    - exists true. exact Heq. }
  rewrite Hline in Hpre.
  assert (line = (if boundary then "^" else "") +:+ core +:+ " " +:+ d1
                 +:+ " " +:+ d2 +:+ " " +:+ String c s6) as -> by exact Hpre.
  rewrite Split_header by (done || by destruct boundary).
  destruct (Split_head c s6 " ") as (piece & pieces & ->).
  { by destruct c as [[] [] [] [] [] [] [] []]. }
  cbn [lookup list_lookup]. intros [= <- <-]. split.
  - by exists boundary, core.
  - intros v Hv. by eapply Atoi_count_range.
Qed.

Lemma header_fields_are_a_commit_and_a_count_witness :
  (∃ (boundary : bool) commit,
     Fixture.C1 = (if boundary then "^" else "") +:+ commit ∧
     Spec.hex40 commit) ∧
  (∀ v, Some 3 = Some v → 0 ≤ v ≤ GoInt.max_int).
Proof.
  apply (header_fields_are_a_commit_and_a_count
           (Spec.header_line false Fixture.C1 "1" "1" "3") Fixture.C1 (Some 3)).
  reflexivity.
Defined.

(** ** Totals of the aggregate *)

Section Totals.

Implicit Types (results : list (gmap string ActorStats)).

Lemma fold_entry_sums infos : ∀ existing o,
  Spec.in_int_range (Lines existing) → Spec.in_int_range (Files existing) →
  Spec.fold_entry (Some existing) infos = Ret o →
  ∃ st, o = Some st ∧ Name st = Name existing ∧
    Lines st = GoInt.wrap64 (Lines existing + Spec.sum_of Lines infos) ∧
    Files st = GoInt.wrap64 (Files existing + Spec.sum_of Files infos).
Proof.
  induction infos as [|info infos IH]; intros existing o HL HF Hrun.
  - injection Hrun as <-. exists existing. simpl.
    rewrite !Z.add_0_r. by rewrite !wrap64_id.
  - cbn [Spec.fold_entry Spec.merge_entry] in Hrun.
    destruct (add_commits _ _) as [cs|]; [|done]. simpl in Hrun.
    apply IH in Hrun; [|apply wrap64_range..].
    destruct Hrun as (st & -> & Hname & HLs & HFs).
    exists st. split; [done|]. split; [done|]. rewrite HLs, HFs.
    cbn [Lines Files]. rewrite !wrap64_add_l.
    change (Spec.sum_of Lines (info :: infos))
      with (Lines info + Spec.sum_of Lines infos).
    change (Spec.sum_of Files (info :: infos))
      with (Files info + Spec.sum_of Files infos).
    split; f_equal; lia.
Qed.

(** Every statistic the extractor returns is kept under its own name and
    holds numbers of the range of an [int]. *)
Lemma calculateStats_entries config git stats a st :
  calculateStats config git = Ret stats → stats !! a = Some st →
  Name st = a ∧ Spec.in_int_range (Lines st) ∧ Spec.in_int_range (Files st).
Proof.
  destruct git as [[out|] log_out]; unfold calculateStats; cbn [blame log].
  2: { intros [= <-]. by rewrite lookup_empty. }
  destruct (String.length out =? 0)%nat eqn:Hlen.
  - destruct (infoEmptyFile log_out) as [info|] eqn:Hinfo; [|done].
    simpl. intros [= <-] Hst.
    apply lookup_singleton_Some in Hst as [<- <-]. split; [done|].
    unfold infoEmptyFile in Hinfo. destruct log_out as [log_out|].
    + unfold index in Hinfo.
      destruct (GoStr.Split log_out "010" !! 0%nat); [|done].
      destruct (GoStr.Split log_out "010" !! 1%nat); [|done].
      simpl in Hinfo. injection Hinfo as <-. by split; vm_compute.
    + injection Hinfo as <-. by split; vm_compute.
  - intros Hrun Hst.
    pose proof (calculateStats_blamed config out log_out Hlen) as Hb.
    unfold calculateStats in Hb. cbn [blame log] in Hb. rewrite Hlen in Hb.
    rewrite Hb in Hrun.
    pose proof (accumulate_entries _ _ _ _ a Hrun partial_stats_empty) as He.
    rewrite Hst, lookup_empty in He. unfold Spec.entry_after in He.
    destruct (Spec.records_of _ _ _); [done|]. injection He as ->.
    cbn [Name Lines Files]. split; [done|].
    split; [apply wrap64_range|by vm_compute].
Qed.

Lemma fold_entry_None_sums infos o :
  Forall (fun info => Spec.in_int_range (Lines info) ∧
                      Spec.in_int_range (Files info)) infos →
  Spec.fold_entry None infos = Ret o →
  match o with
  | None => infos = []
  | Some st =>
      (∃ info, head infos = Some info ∧ Name st = Name info) ∧
      Lines st = GoInt.wrap64 (Spec.sum_of Lines infos) ∧
      Files st = GoInt.wrap64 (Spec.sum_of Files infos)
  end.
Proof.
  destruct infos as [|info infos]; intros Hall Hrun.
  - by injection Hrun as <-.
  - apply Forall_cons in Hall as [[HL HF] _].
    cbn [Spec.fold_entry Spec.merge_entry] in Hrun. simpl in Hrun.
    destruct (fold_entry_sums _ _ _ HL HF Hrun) as (st & -> & Hn & HLs & HFs).
    split; [by exists info|]. by split.
Qed.

End Totals.

(** X5. In the aggregate [aggregateStats] returns, the lines and the files
    of an identity are the sums of its lines and of its files over the
    per-file results, as an [int] holds them: the sums themselves as long as
    they fit. *)
Theorem aggregate_sums_lines_and_files config git arrival final :
  aggregateStats config git arrival = Ret final →
  ∃ results,
    collect (fun file => calculateStats config (git file)) arrival
      = Ret results ∧
    ∀ a st, final !! a = Some st →
      Lines st = GoInt.wrap64 (Spec.sum_of Lines (Spec.infos a results)) ∧
      Files st = GoInt.wrap64 (Spec.sum_of Files (Spec.infos a results)) ∧
      (Spec.in_int_range (Spec.sum_of Lines (Spec.infos a results)) →
       Lines st = Spec.sum_of Lines (Spec.infos a results)) ∧
      (Spec.in_int_range (Spec.sum_of Files (Spec.infos a results)) →
       Files st = Spec.sum_of Files (Spec.infos a results)).
Proof.
  unfold aggregateStats. intros Hagg.
  destruct (collect _ arrival) as [results|] eqn:Hres; [|done].
  exists results. split; [done|]. intros a st Ha. simpl in Hagg.
  destruct (reduce_lookup _ _ a Hagg) as (o & Hfold & Hlk).
  rewrite Ha in Hlk. destruct o as [acc|]; [|done]. injection Hlk as ->.
  assert (Forall (fun info => Spec.in_int_range (Lines info) ∧
                              Spec.in_int_range (Files info))
            (Spec.infos a results)) as Hall.
  { apply Forall_forall. intros info Hin.
    apply list_elem_of_omap in Hin as (stats & Hin & Hstats).
    assert (∃ file, calculateStats config (git file) = Ret stats) as [file Hf].
    { clear -Hres Hin. revert results Hres Hin.
      induction arrival as [|f arrival IH]; intros results Hres Hin.
      - injection Hres as <-. by apply elem_of_nil in Hin.
      - simpl in Hres.
        destruct (calculateStats config (git f)) as [m|] eqn:Hm; [|done].
        simpl in Hres. destruct (collect _ arrival) as [ms|]; [|done].
        injection Hres as <-. apply elem_of_cons in Hin as [->|Hin]; eauto. }
    by destruct (calculateStats_entries _ _ _ _ _ Hf Hstats) as (_ & ? & ?). }
  pose proof (fold_entry_None_sums _ _ Hall Hfold) as (_ & HL & HF).
  cbn [finalize Lines Files]. rewrite HL, HF.
  repeat split; try done; intros Hr; by apply wrap64_id.
Qed.

Lemma aggregate_sums_lines_and_files_witness :
  ∃ results,
    collect (fun file =>
               calculateStats (Fixture.config false) (Fixture.two_files file))
            ["a.go"; "b.go"] = Ret results ∧
    ∀ a st, Fixture.two_files_final !! a = Some st →
      Lines st = GoInt.wrap64 (Spec.sum_of Lines (Spec.infos a results)) ∧
      Files st = GoInt.wrap64 (Spec.sum_of Files (Spec.infos a results)) ∧
      (Spec.in_int_range (Spec.sum_of Lines (Spec.infos a results)) →
       Lines st = Spec.sum_of Lines (Spec.infos a results)) ∧
      (Spec.in_int_range (Spec.sum_of Files (Spec.infos a results)) →
       Files st = Spec.sum_of Files (Spec.infos a results)).
Proof.
  apply (aggregate_sums_lines_and_files (Fixture.config false)
           Fixture.two_files ["a.go"; "b.go"] Fixture.two_files_final).
  vm_compute. reflexivity.
Defined.

(** ** The identities of the aggregate *)

Lemma collect_elem {A B : Type} (f : A → outcome B) (l : list A) ys :
  collect f l = Ret ys →
  (∀ y, y ∈ ys → ∃ x, x ∈ l ∧ f x = Ret y) ∧
  (∀ x, x ∈ l → ∃ y, y ∈ ys ∧ f x = Ret y).
Proof.
  revert ys. induction l as [|x0 l IH]; intros ys Hys.
  - injection Hys as <-. split; intros ? Hin; by apply elem_of_nil in Hin.
  - simpl in Hys. destruct (f x0) as [y0|] eqn:Hy0; [|done]. simpl in Hys.
    destruct (collect f l) as [ys0|]; [|done]. injection Hys as <-.
    destruct (IH _ eq_refl) as [IH1 IH2]. split.
    + intros y Hin. apply elem_of_cons in Hin as [->|Hin].
      * exists x0. split; [apply elem_of_cons; by left|done].
      * destruct (IH1 _ Hin) as (x & Hx & Hfx). exists x.
        split; [apply elem_of_cons; by right|done].
    + intros x Hin. apply elem_of_cons in Hin as [->|Hin].
      * exists y0. split; [apply elem_of_cons; by left|done].
      * destruct (IH2 _ Hin) as (y & Hy & Hfx). exists y.
        split; [apply elem_of_cons; by right|done].
Qed.

Lemma aggregate_entry config (git : string → git_answers) arrival final
    results a :
  collect (fun file => calculateStats config (git file)) arrival = Ret results →
  reduce results = Ret final →
  match final !! a with
  | None => Spec.infos a results = []
  | Some st => Name st = a ∧ Spec.infos a results ≠ []
  end.
Proof.
  intros Hres Hred.
  destruct (reduce_lookup _ _ a Hred) as (o & Hfold & ->).
  assert (Forall (fun info => Name info = a ∧
                              Spec.in_int_range (Lines info) ∧
                              Spec.in_int_range (Files info))
            (Spec.infos a results)) as Hall.
  { apply Forall_forall. intros info Hin.
    apply list_elem_of_omap in Hin as (stats & Hin & Hstats).
    destruct (proj1 (collect_elem _ _ _ Hres) _ Hin) as (file & _ & Hf).
    by eapply calculateStats_entries. }
  assert (Forall (fun info => Spec.in_int_range (Lines info) ∧
                              Spec.in_int_range (Files info))
            (Spec.infos a results)) as Hrange.
  { eapply Forall_impl; [exact Hall|]. by intros ? (_ & ? & ?). }
  pose proof (fold_entry_None_sums _ _ Hrange Hfold) as Ho.
  destruct o as [st|]; [|done]. simpl.
  destruct Ho as ((info & Hhead & Hname) & _).
  destruct (Spec.infos a results) as [|i infos]; [done|].
  injection Hhead as ->. apply Forall_cons in Hall as [[Hn _] _].
  split; [congruence|done].
Qed.

Lemma aggregateStats_names config git arrival final a st :
  aggregateStats config git arrival = Ret final →
  final !! a = Some st → Name st = a.
Proof.
  unfold aggregateStats. intros Hagg Hst.
  destruct (collect _ arrival) as [results|] eqn:Hres; [|done].
  simpl in Hagg. pose proof (aggregate_entry _ _ _ _ _ a Hres Hagg) as He.
  rewrite Hst in He. by destruct He.
Qed.

(** X6. The aggregate [aggregateStats] returns has an entry for an identity
    exactly when the extractor returned one for it for some file, and every
    entry is kept under the name it shows: the rows of the output bear
    different names. *)
Theorem aggregate_identities config git arrival final :
  aggregateStats config git arrival = Ret final →
  ∀ a,
    (is_Some (final !! a) ↔
     ∃ file stats, file ∈ arrival ∧
       calculateStats config (git file) = Ret stats ∧ is_Some (stats !! a)) ∧
    (∀ st, final !! a = Some st → Name st = a).
Proof.
  unfold aggregateStats. intros Hagg a.
  destruct (collect _ arrival) as [results|] eqn:Hres; [|done].
  simpl in Hagg. pose proof (aggregate_entry _ _ _ _ _ a Hres Hagg) as He.
  destruct (collect_elem _ _ _ Hres) as [Hback Hforth]. split.
  - split.
    + intros [st Hst]. rewrite Hst in He. destruct He as [_ Hne].
      destruct (Spec.infos a results) as [|info infos] eqn:Hi; [done|].
      assert (info ∈ Spec.infos a results) as Hin
        by (rewrite Hi; apply elem_of_cons; by left).
      apply list_elem_of_omap in Hin as (stats & Hin & Hstats).
      destruct (Hback _ Hin) as (file & Hfile & Hf).
      exists file, stats. by rewrite Hstats.
    + intros (file & stats & Hfile & Hf & [info Hinfo]).
      destruct (Hforth _ Hfile) as (stats' & Hin & Hf').
      assert (stats' = stats) as -> by congruence.
      assert (info ∈ Spec.infos a results) as Hi.
      { apply list_elem_of_omap. by exists stats. }
      destruct (final !! a); [by eexists|].
      rewrite He in Hi. by apply elem_of_nil in Hi.
  - intros st Hst. rewrite Hst in He. by destruct He.
Qed.

Lemma aggregate_identities_witness :
  (is_Some (Fixture.two_files_final !! "Dev2") ↔
   ∃ file stats, file ∈ ["a.go"; "b.go"] ∧
     calculateStats (Fixture.config false) (Fixture.two_files file)
       = Ret stats ∧ is_Some (stats !! "Dev2")) ∧
  (∀ st, Fixture.two_files_final !! "Dev2" = Some st → Name st = "Dev2").
Proof.
  apply (aggregate_identities (Fixture.config false) Fixture.two_files
           ["a.go"; "b.go"] Fixture.two_files_final).
  vm_compute. reflexivity.
Defined.

(** ** The order of the output *)

(** X7. The runtime ranges over the aggregate in an order of its choosing
    when [outputResults] fills its slice; sorted, the slice is the same for
    every such order, holds the entries of the aggregate and no other, and
    is ranked. *)
Theorem output_order_is_fixed config git arrival final output_config
    (range_order : list (string * ActorStats)) :
  aggregateStats config git arrival = Ret final →
  range_order ≡ₚ map_to_list final →
  outputResults_actors range_order output_config =
    outputResults_actors (map_to_list final) output_config ∧
  outputResults_actors range_order output_config ≡ₚ (map_to_list final).*2 ∧
  Spec.ranked (OrderBy output_config)
    (outputResults_actors range_order output_config).
Proof.
  intros Hagg Hperm. unfold outputResults_actors.
  assert (Name <$> (map_to_list final).*2 = (map_to_list final).*1) as Hnames.
  { rewrite <- list_fmap_compose. apply list_fmap_ext.
    intros i [a st] Hin. simpl. apply list_elem_of_lookup_2 in Hin.
    apply elem_of_map_to_list in Hin.
    by eapply aggregateStats_names. }
  split; [|split].
  - apply ranked_unique.
    + rewrite Hnames. apply NoDup_fst_map_to_list.
    + by rewrite sortByConfig_Permutation, Hperm.
    + apply sortByConfig_ranked.
  - by rewrite sortByConfig_Permutation, Hperm.
  - apply sortByConfig_ranked.
Qed.

Lemma output_order_is_fixed_witness :
  outputResults_actors
    [("Dev2", {| Name := "Dev2"; Lines := 5;
                 commitsSet := Some {[ Fixture.C2 ]};
                 Commits := 1; Files := 1 |});
     ("Dev1", {| Name := "Dev1"; Lines := 15;
                 commitsSet := Some {[ Fixture.C1 ]};
                 Commits := 1; Files := 2 |})]
    (Fixture.config false) =
  outputResults_actors (map_to_list Fixture.two_files_final)
    (Fixture.config false).
Proof.
  apply (output_order_is_fixed (Fixture.config false) Fixture.two_files
           ["a.go"; "b.go"] Fixture.two_files_final (Fixture.config false)).
  - vm_compute. reflexivity.
  - unfold Fixture.two_files_final.
    rewrite map_to_list_insert by (vm_compute; reflexivity).
    rewrite map_to_list_singleton. apply perm_swap.
Defined.

(** ** Validation and the order asked for *)

Lemma validOrders_names (orderBy : string) :
  is_Some (validOrders !! orderBy) →
  orderBy = "lines" ∨ orderBy = "commits" ∨ orderBy = "files".
Proof.
  unfold validOrders. intros [b H].
  apply lookup_insert_Some in H as [[<- _]|[_ H]]; [by left|].
  apply lookup_insert_Some in H as [[<- _]|[_ H]]; [right; by left|].
  apply lookup_singleton_Some in H as [<- _]. right; by right.
Qed.

Lemma validFormats_names (format : string) :
  is_Some (validFormats !! format) →
  format = "tabular" ∨ format = "csv" ∨ format = "json" ∨
  format = "json-lines".
Proof.
  unfold validFormats. intros [b H].
  apply lookup_insert_Some in H as [[<- _]|[_ H]]; [by left|].
  apply lookup_insert_Some in H as [[<- _]|[_ H]]; [right; by left|].
  apply lookup_insert_Some in H as [[<- _]|[_ H]]; [right; right; by left|].
  apply lookup_singleton_Some in H as [<- _]. right; right; by right.
Qed.

Lemma not_less_primary orderBy key a b :
  Spec.named_key orderBy = Some key → less orderBy b a = false → key b ≤ key a.
Proof.
  intros Hkey Hless.
  assert (¬ Spec.ranks_before orderBy b a) as Hnot.
  { intros H. apply less_spec in H. congruence. }
  unfold Spec.named_key in Hkey. unfold Spec.ranks_before, Spec.cascade in Hnot.
  destruct (String.eqb_spec orderBy "lines") as [->|].
  { injection Hkey as <-. simpl in Hnot. lia. }
  destruct (String.eqb orderBy "commits").
  { injection Hkey as <-. lia. }
  destruct (String.eqb orderBy "files"); [|done].
  injection Hkey as <-. lia.
Qed.

(** X8. A configuration that [validateConfig] lets through names one of the
    four formats and one of the three orders, and the slice sorted for that
    order never rises in the field the order is named after. *)
Theorem validated_order_is_descending config cat_file actors :
  validateConfig config cat_file = Valid →
  (Format config = "tabular" ∨ Format config = "csv" ∨
   Format config = "json" ∨ Format config = "json-lines") ∧
  cat_file = true ∧
  ∃ key, Spec.named_key (OrderBy config) = Some key ∧
         StronglySorted (fun a b => key b ≤ key a)
           (sortByConfig actors (OrderBy config)).
Proof.
  unfold validateConfig.
  destruct (validFormats !! Format config) as [f|] eqn:Hf; [|done].
  destruct (validOrders !! OrderBy config) as [o|] eqn:Ho; [|done].
  destruct cat_file; [|done]. intros _.
  split; [by apply validFormats_names; eexists|]. split; [done|].
  assert (∃ key, Spec.named_key (OrderBy config) = Some key) as [key Hkey].
  { destruct (validOrders_names (OrderBy config)) as [-> | [-> | ->]];
      by eauto. }
  exists key. split; [done|].
  pose proof (sortByConfig_ranked actors (OrderBy config)) as Hranked.
  unfold Spec.ranked in Hranked.
  induction Hranked as [|a l Hl IH Ha]; constructor; [done|].
  eapply Forall_impl; [exact Ha|]. intros b Hb. by eapply not_less_primary.
Qed.

Lemma validated_order_is_descending_witness :
  (Format (Fixture.config false) = "tabular" ∨
   Format (Fixture.config false) = "csv" ∨
   Format (Fixture.config false) = "json" ∨
   Format (Fixture.config false) = "json-lines") ∧
  true = true ∧
  ∃ key, Spec.named_key (OrderBy (Fixture.config false)) = Some key ∧
         StronglySorted (fun a b => key b ≤ key a)
           (sortByConfig [Fixture.Zoe; Fixture.Alice; Fixture.Bob]
              (OrderBy (Fixture.config false))).
Proof.
  apply (validated_order_is_descending (Fixture.config false) true
           [Fixture.Zoe; Fixture.Alice; Fixture.Bob]).
  reflexivity.
Defined.

(** ** The three list predicates *)

Section ListPredicates.

Variable filepath_Match : string -> string -> bool.

Lemma existsb_elem_of {A : Type} (f : A → bool) (l : list A) :
  existsb f l = true ↔ ∃ x, x ∈ l ∧ f x = true.
Proof.
  rewrite existsb_exists. split; intros (x & Hx & Hf); exists x;
    (split; [by apply list_elem_of_In|done]).
Qed.

(** X9. The extension filter passes a file when the list is empty or the
    whole path ends with a listed text; the exclude filter when no pattern
    matches; the restrict filter when the list is empty or a pattern
    matches. Given the same patterns, one at least, the exclude and the
    restrict filter pass opposite files. *)
Theorem list_filters_by_membership (file : string)
    (extensions patterns : list string) :
  (matchesExtensions file extensions = true ↔
   extensions = [] ∨ ∃ ext, ext ∈ extensions ∧ Spec.is_suffix ext file) ∧
  (matchesExcludePatterns filepath_Match file patterns = true ↔
   ∀ pattern, pattern ∈ patterns → filepath_Match pattern file = false) ∧
  (matchesRestrictToPatterns filepath_Match file patterns = true ↔
   patterns = [] ∨
   ∃ pattern, pattern ∈ patterns ∧ filepath_Match pattern file = true) ∧
  (patterns ≠ [] →
   matchesExcludePatterns filepath_Match file patterns =
     negb (matchesRestrictToPatterns filepath_Match file patterns)).
Proof.
  unfold matchesExtensions, matchesExcludePatterns, matchesRestrictToPatterns.
  split; [|split; [|split]].
  - destruct extensions as [|e es]; [by split; [left|]|].
    cbn [length Nat.eqb]. rewrite existsb_elem_of. split.
    + intros (ext & Hin & Hs). right. exists ext.
      split; [done|by apply HasSuffix_spec].
    + intros [?|(ext & Hin & Hs)]; [done|]. exists ext.
      split; [done|by apply HasSuffix_spec].
  - destruct patterns as [|p ps].
    + split; [|done]. intros _ ? Hin. by apply elem_of_nil in Hin.
    + cbn [length Nat.eqb]. rewrite negb_true_iff. split.
      * intros Hnone pattern Hin.
        destruct (filepath_Match pattern file) eqn:Hm; [|done].
        assert (existsb (fun pattern => filepath_Match pattern file) (p :: ps)
                = true) as H by (apply existsb_elem_of; eauto).
        congruence.
      * intros Hall.
        destruct (existsb _ (p :: ps)) eqn:He; [|done].
        apply existsb_elem_of in He as (pattern & Hin & Hm).
        rewrite (Hall _ Hin) in Hm. done.
  - destruct patterns as [|p ps]; [by split; [left|]|].
    cbn [length Nat.eqb]. rewrite existsb_elem_of. split.
    + intros H. by right.
    + by intros [?|H].
  - intros Hne. by destruct patterns.
Qed.

(** X10. A longer list of exclude patterns passes fewer files, and a longer
    list of extensions or of restrict patterns passes more, unless the
    shorter list is empty: an empty list is no filter at all. *)
Theorem list_filters_are_monotone (file : string) (l l' : list string) :
  (∀ x, x ∈ l → x ∈ l') →
  (matchesExcludePatterns filepath_Match file l' = true →
   matchesExcludePatterns filepath_Match file l = true) ∧
  (l ≠ [] →
   (matchesExtensions file l = true → matchesExtensions file l' = true) ∧
   (matchesRestrictToPatterns filepath_Match file l = true →
    matchesRestrictToPatterns filepath_Match file l' = true)).
Proof.
  intros Hsub.
  assert (l ≠ [] → l' ≠ []) as Hne'.
  { intros Hne ->. destruct l as [|x l]; [done|].
    specialize (Hsub x ltac:(apply elem_of_cons; by left)).
    by apply elem_of_nil in Hsub. }
  unfold matchesExtensions, matchesExcludePatterns, matchesRestrictToPatterns.
  split.
  - destruct l as [|x l]; [done|]. specialize (Hne' ltac:(done)).
    destruct l' as [|x' l']; [done|]. cbn [length Nat.eqb].
    rewrite !negb_true_iff. intros Hnone.
    destruct (existsb _ (x :: l)) eqn:He; [|done].
    apply existsb_elem_of in He as (p & Hin & Hm).
    assert (existsb (fun pattern => filepath_Match pattern file) (x' :: l')
            = true) as H by (apply existsb_elem_of; eauto).
    congruence.
  - intros Hne. specialize (Hne' Hne).
    destruct l as [|x l]; [done|]. destruct l' as [|x' l']; [done|].
    cbn [length Nat.eqb]. rewrite !existsb_elem_of.
    split; intros (y & Hin & Hy); exists y; eauto.
Qed.

End ListPredicates.

Lemma list_filters_by_membership_witness :
  matchesExcludePatterns Fixture.literal_Match "go.mod" ["go.sum"; "go.mod"] =
    negb (matchesRestrictToPatterns Fixture.literal_Match "go.mod"
            ["go.sum"; "go.mod"]).
Proof.
  destruct (list_filters_by_membership Fixture.literal_Match "go.mod" []
              ["go.sum"; "go.mod"]) as (_ & _ & _ & Hopposite).
  apply Hopposite. discriminate.
Defined.

Lemma list_filters_are_monotone_witness :
  (matchesExcludePatterns Fixture.literal_Match "main.go" ["go.sum"; "go.mod"]
     = true →
   matchesExcludePatterns Fixture.literal_Match "main.go" ["go.mod"] = true) ∧
  (["go.mod"] ≠ [] →
   (matchesExtensions "main.go" ["go.mod"] = true →
    matchesExtensions "main.go" ["go.sum"; "go.mod"] = true) ∧
   (matchesRestrictToPatterns Fixture.literal_Match "main.go" ["go.mod"]
      = true →
    matchesRestrictToPatterns Fixture.literal_Match "main.go"
      ["go.sum"; "go.mod"] = true)).
Proof.
  apply (list_filters_are_monotone Fixture.literal_Match "main.go"
           ["go.mod"] ["go.sum"; "go.mod"]).
  intros x Hx. apply elem_of_cons. by right.
Defined.

(** ** Extensions of paths and of languages *)

Section ExtFacts.

Variable ToLower : string -> string.

Lemma list_ascii_append (s1 s2 : string) :
  list_ascii_of_string (s1 +:+ s2) =
    list_ascii_of_string s1 ++ list_ascii_of_string s2.
Proof.
  induction s1 as [|c s1 IH]; [done|].
  change (c :: list_ascii_of_string (s1 +:+ s2) =
          c :: (list_ascii_of_string s1 ++ list_ascii_of_string s2)).
  by rewrite IH.
Qed.

Lemma count_byte_not_in c (s : string) :
  Spec.count_byte c s = 0%nat → c ∉ list_ascii_of_string s.
Proof.
  induction s as [|b s IH]; intros Hnone Hin; [by apply elem_of_nil in Hin|].
  cbn [Spec.count_byte] in Hnone. simpl in Hin.
  apply elem_of_cons in Hin as [->|Hin].
  - rewrite Ascii.eqb_refl in Hnone. lia.
  - apply IH; [lia|done].
Qed.

Lemma count_byte_not_in_rev c (s : string) :
  Spec.count_byte c s = 0%nat → c ∉ rev (list_ascii_of_string s).
Proof.
  intros Hnone Hin. apply (count_byte_not_in c s Hnone).
  apply list_elem_of_In, in_rev, list_elem_of_In. exact Hin.
Qed.

(** The loop of [filepath.Ext] walks over bytes that are neither a dot nor
    a separator. *)
Lemma ext_scan_pass (l rest : list ascii) : ∀ seen,
  "/"%char ∉ l → "."%char ∉ l →
  GoStr.ext_scan (l ++ rest) seen = GoStr.ext_scan rest (rev l ++ seen).
Proof.
  induction l as [|c l IH]; intros seen Hslash Hdot; [done|].
  apply not_elem_of_cons in Hslash as [Hc1 Hslash].
  apply not_elem_of_cons in Hdot as [Hc2 Hdot].
  cbn [app GoStr.ext_scan].
  destruct (Ascii.eqb_spec c "/"); [done|].
  destruct (Ascii.eqb_spec c "."); [done|].
  rewrite IH by done. cbn [rev]. by rewrite <- app_assoc.
Qed.

Lemma Ext_of_extension (base ext : string) :
  Spec.count_byte "." ext = 0%nat → Spec.count_byte "/" ext = 0%nat →
  GoStr.Ext (base +:+ "." +:+ ext) = "." +:+ ext.
Proof.
  intros Hdot Hslash. unfold GoStr.Ext.
  rewrite list_ascii_append.
  change (list_ascii_of_string ("." +:+ ext))
    with ("."%char :: list_ascii_of_string ext).
  rewrite rev_app_distr. cbn [rev]. rewrite <- app_assoc.
  rewrite ext_scan_pass.
  - cbn [app GoStr.ext_scan]. cbn. rewrite rev_involutive, app_nil_r.
    change (String "." (string_of_list_ascii (list_ascii_of_string ext))
            = String "." ext).
    by rewrite string_of_list_ascii_of_string.
  - by apply count_byte_not_in_rev.
  - by apply count_byte_not_in_rev.
Qed.

Lemma Ext_without_dot (dir name : string) :
  Spec.count_byte "." name = 0%nat → Spec.count_byte "/" name = 0%nat →
  GoStr.Ext name = "" ∧ GoStr.Ext (dir +:+ "/" +:+ name) = "".
Proof.
  intros Hdot Hslash.
  assert ("/"%char ∉ rev (list_ascii_of_string name)) as H1.
  { by apply count_byte_not_in_rev. }
  assert ("."%char ∉ rev (list_ascii_of_string name)) as H2.
  { by apply count_byte_not_in_rev. }
  unfold GoStr.Ext. split.
  - rewrite <- (app_nil_r (rev _)). by rewrite ext_scan_pass.
  - rewrite list_ascii_append.
    change (list_ascii_of_string ("/" +:+ name))
      with ("/"%char :: list_ascii_of_string name).
    rewrite rev_app_distr. cbn [rev]. rewrite <- app_assoc.
    by rewrite ext_scan_pass.
Qed.

(** X11. A file whose name ends with a dot and an extension registered for
    a requested language passes the language filter, in whatever directory
    it lies; a file whose name has no dot passes it only if no language is
    requested or the empty extension is registered for one. *)
Theorem language_filter_reads_the_last_extension config
    (dir base ext name lang : string) (exts : list string) :
  Spec.count_byte "." ext = 0%nat → Spec.count_byte "/" ext = 0%nat →
  Spec.count_byte "." name = 0%nat → Spec.count_byte "/" name = 0%nat →
  (lang ∈ Languages config →
   ExtensionsMap config !! ToLower lang = Some exts →
   ("." +:+ ext) ∈ exts →
   matchesLanguage ToLower (base +:+ "." +:+ ext) config = true) ∧
  (Languages config ≠ [] →
   (∀ l es, l ∈ Languages config →
      ExtensionsMap config !! ToLower l = Some es → "" ∉ es) →
   matchesLanguage ToLower name config = false ∧
   matchesLanguage ToLower (dir +:+ "/" +:+ name) config = false).
Proof.
  intros Hdot Hslash Hndot Hnslash. split.
  - intros Hlang Hexts Hext. apply matchesLanguage_spec. right.
    exists lang, exts, ("." +:+ ext). repeat split; try done.
    rewrite Ext_of_extension by done. by exists "".
  - intros Hne Hnonempty.
    destruct (Ext_without_dot dir name Hndot Hnslash) as [E1 E2].
    assert (∀ path, GoStr.Ext path = "" →
              matchesLanguage ToLower path config = false) as Hnone.
    { intros path HE.
      destruct (matchesLanguage ToLower path config) eqn:Hm; [|done].
      apply matchesLanguage_spec in Hm
        as [?|(l & es & e & Hl & Hes & He & [p Hp])]; [done|].
      rewrite HE in Hp. destruct p; [|done]. change ("" = e) in Hp. subst e.
      by destruct (Hnonempty _ _ Hl Hes). }
    split; by apply Hnone.
Qed.

Lemma add_extensions_exact k (exts : list string) :
  ∀ (m : gmap string (list string)) k',
  fold_left (configs.add_extension k) exts m !! k' =
    if decide (k = k' ∧ exts ≠ [])
    then Some (default [] (m !! k') ++ exts) else m !! k'.
Proof.
  induction exts as [|ext exts IH]; intros m k'; simpl.
  - case_decide as H; [by destruct H|done].
  - rewrite IH. unfold configs.add_extension.
    destruct (decide (k = k')) as [->|Hne].
    + rewrite lookup_insert_eq. simpl.
      rewrite (decide_True (P := k' = k' ∧ ext :: exts ≠ [])) by done.
      destruct exts as [|e exts].
      * by rewrite decide_False by naive_solver.
      * rewrite decide_True by done. by rewrite <- app_assoc.
    + rewrite lookup_insert_ne by done.
      by rewrite !decide_False by naive_solver.
Qed.

Lemma LoadExtensionsMap_from (table : list configs.languageExtension) k :
  ∀ m : gmap string (list string),
  (∀ l, m !! k = Some l → l ≠ []) →
  fold_left (fun m lang =>
               fold_left (configs.add_extension (ToLower (configs.Name lang)))
                 (configs.Extensions lang) m) table m !! k =
    match default [] (m !! k) ++ Spec.extensions_of ToLower table k with
    | [] => None
    | l => Some l
    end.
Proof.
  induction table as [|lang table IH]; intros m Hm.
  - unfold Spec.extensions_of. simpl. rewrite app_nil_r.
    destruct (m !! k) as [[|x l]|]; try done.
    by destruct (Hm [] eq_refl).
  - cbn [fold_left]. rewrite IH.
    + rewrite add_extensions_exact. unfold Spec.extensions_of.
      cbn [List.filter].
      destruct (String.eqb_spec (ToLower (configs.Name lang)) k) as [Hk|Hk].
      * rewrite fmap_cons. cbn [concat].
        destruct (configs.Extensions lang) as [|e es] eqn:He.
        -- by rewrite decide_False by naive_solver.
        -- rewrite decide_True by done. cbn [default from_option id].
           by rewrite <- app_assoc.
      * by rewrite decide_False by naive_solver.
    + intros l. rewrite add_extensions_exact. case_decide as Hd.
      * intros [= <-]. destruct Hd as [_ Hne].
        destruct (configs.Extensions lang); [done|].
        by destruct (default [] (m !! k)).
      * apply Hm.
Qed.

(** X12. The table [LoadExtensionsMap] builds maps a lowered language name
    to the extensions of all the entries of that lowered name, in their
    order; a name with no extension at all is no key of the table. *)
Theorem LoadExtensionsMap_collects_extensions
    (table : list configs.languageExtension) (k : string) :
  configs.LoadExtensionsMap ToLower table !! k =
    match Spec.extensions_of ToLower table k with
    | [] => None
    | exts => Some exts
    end.
Proof.
  unfold configs.LoadExtensionsMap.
  rewrite LoadExtensionsMap_from by (intros l; by rewrite lookup_empty).
  by rewrite lookup_empty.
Qed.

End ExtFacts.

(** ** The whole run *)

Section Pipeline.

Variable filepath_Match : string -> string -> bool.
Variable ToLower : string -> string.

(** The filter stage runs to closure from every state it reaches. *)
Lemma filter_runs_to_closure config files : ∀ n s,
  (filter_fuel s < n)%nat →
  Spec.filter_inv (passes filepath_Match ToLower config) files s →
  ∃ s', rtc (parallelFilter_step filepath_Match ToLower config) s s' ∧
        closed s' = true.
Proof.
  induction n as [|n IH]; intros s Hfuel Hinv; [lia|].
  destruct (closed s) eqn:Hc.
  - exists s. by split.
  - destruct (filter_progress _ _ _ _ _ Hinv Hc) as [s1 Hstep].
    pose proof (filter_step_fuel _ _ _ _ _ Hstep) as Hless.
    destruct (IH s1) as (s' & Hrun & Hclosed); [lia| |].
    + by eapply filter_inv_step.
    + exists s'. split; [|done]. by eapply rtc_l.
Qed.

(** X13. Where [git] answers completely for every listed file that passes
    the filters, and no fallback query fails, a run of the command ends, and
    every run ends with the one aggregate: that of the passing files in the
    order of the listing, whatever the interleaving of the filter workers and
    the order in which the extractors deliver. *)
Theorem run_result_is_independent_of_scheduling
    (table : list configs.languageExtension) (config : Config)
    (ls_tree : option string) (git : string → git_answers) :
  let loaded :=
    set_ExtensionsMap config (configs.LoadExtensionsMap ToLower table) in
  let selected :=
    List.filter (passes filepath_Match ToLower loaded) (getFiles ls_tree) in
  Forall (fun file => Spec.answers_complete loaded (git file) = true ∧
                      Spec.fallback_failed (git file) = false) selected →
  ∃ final,
    aggregateStats loaded git selected = Ret final ∧
    ∀ result,
      main_run filepath_Match ToLower table config ls_tree git result ↔
      result = Ret final.
Proof.
  intros loaded selected Hall.
  destruct (aggregateStats_Permutation loaded git selected selected Hall)
    as (final & Hfinal & _); [done|].
  exists final. split; [done|]. intros result. split.
  - intros (s & arrival & Hrun & Hclosed & Harrival & <-).
    apply filter_inv_reachable in Hrun.
    destruct (filter_closed_final _ _ _ _ _ Hrun Hclosed)
      as (_ & _ & _ & Hsent & _).
    destruct (aggregateStats_Permutation loaded git selected arrival Hall)
      as (final' & Hfinal' & Harrived).
    + by rewrite Harrival, Hsent.
    + change (aggregateStats loaded git arrival = Ret final).
      rewrite Harrived. congruence.
  - intros ->.
    destruct (filter_runs_to_closure loaded (getFiles ls_tree)
                (S (filter_fuel (parallelFilter_init (getFiles ls_tree))))
                (parallelFilter_init (getFiles ls_tree)))
      as (s & Hrun & Hclosed); [lia|apply filter_inv_init|].
    exists s, (sent s). split; [done|]. split; [done|]. split; [done|].
    pose proof (filter_inv_reachable _ _ _ _ _ Hrun) as Hinv.
    destruct (filter_closed_final _ _ _ _ _ Hinv Hclosed)
      as (_ & _ & _ & Hsent & _).
    destruct (aggregateStats_Permutation loaded git selected (sent s) Hall)
      as (final' & Hfinal' & Harrived); [by rewrite Hsent|].
    change (aggregateStats loaded git (sent s) = Ret final).
    rewrite Harrived. congruence.
Qed.

End Pipeline.

Lemma run_result_is_independent_of_scheduling_witness :
  ∃ final,
    aggregateStats Fixture.only_go Fixture.two_files ["a.go"; "b.go"]
      = Ret final ∧
    ∀ result,
      main_run Fixture.literal_Match GoStr.ascii_ToLower [] Fixture.only_go
        (Some (Spec.path_lines ["a.go"; "README.md"; "b.go"]))
        Fixture.two_files result ↔
      result = Ret final.
Proof.
  apply (run_result_is_independent_of_scheduling Fixture.literal_Match
           GoStr.ascii_ToLower [] Fixture.only_go
           (Some (Spec.path_lines ["a.go"; "README.md"; "b.go"]))
           Fixture.two_files).
  repeat constructor; vm_compute; reflexivity.
Defined.

(** ** A file that cannot be blamed *)

Lemma collect_app {A B : Type} (f : A → outcome B) (l1 l2 : list A) :
  collect f (l1 ++ l2) =
    ys1 ← collect f l1; ys2 ← collect f l2; Ret (ys1 ++ ys2).
Proof.
  induction l1 as [|x l1 IH]; simpl.
  - by destruct (collect f l2).
  - destruct (f x) as [y|]; [|done]. simpl. rewrite IH.
    destruct (collect f l1) as [ys1|]; [|done]. simpl.
    by destruct (collect f l2).
Qed.

Lemma for_range_app {A S : Type} (f : A → S → outcome S) (l1 l2 : list A) :
  ∀ s, for_range f (l1 ++ l2) s = s' ← for_range f l1 s; for_range f l2 s'.
Proof.
  induction l1 as [|x l1 IH]; intros s; simpl; [done|].
  destruct (f x s) as [s1|]; [|done]. simpl. apply IH.
Qed.

Lemma reduce_skips_empty_middle (r1 r2 : list (gmap string ActorStats)) :
  reduce (r1 ++ ∅ :: r2) = reduce (r1 ++ r2).
Proof.
  unfold reduce. rewrite !for_range_app.
  destruct (for_range merge_file r1 ∅) as [acc|]; [|done].
  cbn [mbind outcome_bind for_range].
  assert (merge_file ∅ acc = Ret acc) as ->; [|done].
  unfold merge_file. by rewrite map_to_list_empty.
Qed.

(** X14. A file for which [git blame] fails changes nothing: the aggregate,
    or the panic, is that of the other files, wherever among them the result
    of the file arrives. *)
Theorem unblamed_file_changes_nothing config (git : string → git_answers)
    (before after : list string) (file : string) :
  blame (git file) = None →
  aggregateStats config git (before ++ file :: after) =
    aggregateStats config git (before ++ after).
Proof.
  intros Hfailed. unfold aggregateStats. rewrite !collect_app.
  destruct (collect _ before) as [r1|]; [|done].
  cbn [collect mbind outcome_bind].
  assert (calculateStats config (git file) = Ret ∅) as ->
    by (unfold calculateStats; by rewrite Hfailed).
  destruct (collect _ after) as [r2|]; [|done].
  cbn [mret outcome_ret]. apply reduce_skips_empty_middle.
Qed.

Lemma unblamed_file_changes_nothing_witness :
  aggregateStats (Fixture.config false) Fixture.two_files
    (["a.go"] ++ "gone.go" :: ["b.go"]) =
  aggregateStats (Fixture.config false) Fixture.two_files (["a.go"] ++ ["b.go"]).
Proof.
  apply (unblamed_file_changes_nothing (Fixture.config false)
           Fixture.two_files ["a.go"] ["b.go"] "gone.go").
  reflexivity.
Defined.

(** ** A path too long for the scanner *)

(** X15. A line of [MaxScanTokenSize] bytes or more in the answer of
    [git ls-tree] loses the whole listing: [getFiles] returns no file at
    all, the paths listed before the long one included. *)
Theorem long_path_loses_the_listing (before : list string)
    (long rest : string) :
  Forall (fun file => Spec.listable file = true) before →
  Spec.count_byte "010" long = 0%nat →
  MaxScanTokenSize ≤ Z.of_nat (String.length long) →
  getFiles (Some (Spec.path_lines before +:+ long +:+ String "010" rest))
    = [] ∧
  getFiles (Some (Spec.path_lines before +:+ long)) = [].
Proof.
  intros Hbefore Hnl Hlong.
  assert (long ≠ "") as Hne.
  { intros ->. unfold MaxScanTokenSize in Hlong. simpl in Hlong. lia. }
  assert (∀ lines,
            (if forallb (fun line =>
                           Z.of_nat (String.length line) <? MaxScanTokenSize)
                        (before ++ long :: lines)
             then dropCR <$> (before ++ long :: lines) else []) = [])
    as Hdrop.
  { intros lines. rewrite forallb_app. cbn [forallb].
    assert ((Z.of_nat (String.length long) <? MaxScanTokenSize) = false) as ->
      by (apply Z.ltb_ge; lia).
    by rewrite andb_false_r. }
  split.
  - unfold getFiles. rewrite scan_raw_path_lines by done.
    rewrite scan_raw_line by done. apply Hdrop.
  - unfold getFiles. rewrite scan_raw_path_lines by done.
    rewrite scan_raw_last by done. apply Hdrop.
Qed.

Lemma long_path_loses_the_listing_witness :
  getFiles (Some (Spec.path_lines ["a.go"] +:+ Fixture.long_path
                  +:+ String "010" "b.go")) = [] ∧
  getFiles (Some (Spec.path_lines ["a.go"] +:+ Fixture.long_path)) = [].
Proof.
  apply (long_path_loses_the_listing ["a.go"] Fixture.long_path "b.go").
  - repeat constructor.
  - vm_compute. reflexivity.
  - vm_compute. discriminate.
Defined.

Lemma language_filter_reads_the_last_extension_witness :
  matchesLanguage GoStr.ascii_ToLower ("cmd/util" +:+ "." +:+ "h")
    Fixture.only_C = true.
Proof.
  apply (proj1 (language_filter_reads_the_last_extension GoStr.ascii_ToLower
                  Fixture.only_C "cmd" "cmd/util" "h" "Makefile" "C"
                  [".c"; ".h"] eq_refl eq_refl eq_refl eq_refl)).
  - apply elem_of_cons. by left.
  - vm_compute. reflexivity.
  - apply elem_of_cons. right. apply elem_of_cons. by left.
Defined.
